(** * Discord-to-Telegram mirror: a shallow embedding of [main.py]

    The program polls Discord channels, cleans the text of each recent
    message, forwards text and images to a Telegram thread and keeps a
    JSON file of what it has already forwarded.

    Python strings are sequences of Unicode code points, so a string is a
    [list N] here.  The tables of the Python runtime that the program relies
    on (case folding of the [re] module, [str.strip]'s white space, the
    [\w] and [\d] classes, ISO-8601 parsing and printing) are not part of
    the repository: they are the fields of the classes [Unicode] and
    [DateTime], and every theorem holds for all of them. *)

From Stdlib Require Import ZArith NArith List String Ascii Lia Bool.
From Stdlib Require Import Sorting.Sorted Sorting.Permutation.
From stdpp Require Import base option list gmap.

Local Open Scope N_scope.
Local Open Scope list_scope.

(** ** Strings *)

Abbreviation pystr := (list N).

(** A literal of the source, as code points. *)
Definition u (s : string) : pystr :=
  List.map (fun a => N.of_nat (nat_of_ascii a)) (list_ascii_of_string s).

(** Truth value of a Python string: only [''] is false. *)
Definition nonempty (s : pystr) : bool :=
  match s with [] => false | _ :: _ => true end.

(** Truth value of a string that may be [None]. *)
Definition truthy (o : option pystr) : bool :=
  match o with Some s => nonempty s | None => false end.

(** [sep.join(parts)] *)
Fixpoint join (sep : pystr) (parts : list pystr) : pystr :=
  match parts with
  | [] => []
  | [p] => p
  | p :: rest => p ++ sep ++ join sep rest
  end.

(** [s.startswith(p)] *)
Fixpoint startswith (p s : pystr) : bool :=
  match p, s with
  | [], _ => true
  | a :: p', c :: s' => (a =? c) && startswith p' s'
  | _ :: _, [] => false
  end.

(** [p in s] for two strings: [p] occurs in [s] as a substring. *)
Fixpoint contains (p s : pystr) : bool :=
  startswith p s ||
  match s with
  | [] => false
  | _ :: s' => contains p s'
  end.

(** [s.replace(old, new)] for a one-character [old]. *)
Definition replace_char (old : N) (new : pystr) (s : pystr) : pystr :=
  flat_map (fun c => if c =? old then new else [c]) s.

(** Order of two strings, code point by code point (Python's [<] on [str]). *)
Fixpoint str_ltb (a b : pystr) : bool :=
  match a, b with
  | [], [] => false
  | [], _ :: _ => true
  | _ :: _, [] => false
  | x :: a', y :: b' => (x <? y) || ((x =? y) && str_ltb a' b')
  end.

(** ** Tables of the Python runtime *)

Class Unicode := {
  (** [sre_ignorecase p c]: under [re.IGNORECASE] the pattern literal [p]
      matches the character [c] of the text. *)
  sre_ignorecase : N -> N -> bool;
  (** [c.isspace()], the characters removed by [str.strip()]. *)
  py_isspace : N -> bool;
  (** the class [\w] *)
  sre_word : N -> bool;
  (** the class [\d] *)
  sre_digit : N -> bool
}.

(** The tables on the code points below 128.  Other code points are taken
    as caseless and outside every class; the definitions are run with these
    tables on ASCII texts only. *)
Definition ascii_lower (c : N) : N :=
  if (65 <=? c) && (c <=? 90) then c + 32 else c.

Definition ascii_isspace (c : N) : bool :=
  ((9 <=? c) && (c <=? 13)) || ((28 <=? c) && (c <=? 32)).

Definition ascii_isdigit (c : N) : bool := (48 <=? c) && (c <=? 57).

Definition ascii_isword (c : N) : bool :=
  ascii_isdigit c || ((65 <=? c) && (c <=? 90)) || ((97 <=? c) && (c <=? 122))
  || (c =? 95).

Definition ascii_range : Unicode := {|
  sre_ignorecase p c := (c <? 128) && (p <? 128) && (ascii_lower p =? ascii_lower c)
                        || (p =? c);
  py_isspace := ascii_isspace;
  sre_word := ascii_isword;
  sre_digit := ascii_isdigit
|}.

(** ** The regular expressions of the program

    The patterns of [main.py] are alternations of sequences of character
    classes, each taken once, optionally ([?]) or one or more times ([+]).
    Matching is Python's: alternatives from left to right, quantifiers
    greedy, with backtracking. *)

Inductive quant := One | Opt | Plus.

Definition atom : Type := (N -> bool) * quant.
Definition branch : Type := list atom.
Definition regex : Type := list branch.

(** [cls+] followed by [k]: take as many characters as possible, give one
    back at a time until [k] matches.  The result is the length matched. *)
Fixpoint match_plus (cls : N -> bool) (k : pystr -> option nat) (s : pystr)
  : option nat :=
  match s with
  | c :: s' =>
      if cls c then
        match match_plus cls k s' with
        | Some n => Some (S n)
        | None => S <$> k s'
        end
      else None
  | [] => None
  end.

Definition match_one (cls : N -> bool) (k : pystr -> option nat) (s : pystr)
  : option nat :=
  match s with
  | c :: s' => if cls c then S <$> k s' else None
  | [] => None
  end.

Fixpoint match_branch (b : branch) : pystr -> option nat :=
  match b with
  | [] => fun _ => Some O
  | (cls, One) :: b' => match_one cls (match_branch b')
  | (cls, Opt) :: b' => fun s =>
      match match_one cls (match_branch b') s with
      | Some n => Some n
      | None => match_branch b' s
      end
  | (cls, Plus) :: b' => match_plus cls (match_branch b')
  end.

(** [pattern.match(s)]: the length of the match at the start of [s]. *)
Fixpoint match_regex (r : regex) (s : pystr) : option nat :=
  match r with
  | [] => None
  | b :: r' =>
      match match_branch b s with
      | Some n => Some n
      | None => match_regex r' s
      end
  end.

(** [re.sub(r, '', s)]: scan from the left; where the pattern matches,
    drop the match and go on behind it, elsewhere keep the character.
    [skip] counts the characters of the current match still to drop.  An
    empty match replaces nothing. *)
Fixpoint sub_from (r : regex) (skip : nat) (s : pystr) : pystr :=
  match s with
  | [] => []
  | c :: s' =>
      match skip with
      | S k => sub_from r k s'
      | O =>
          match match_regex r s with
          | Some (S n) => sub_from r n s'
          | _ => c :: sub_from r O s'
          end
      end
  end.

Definition re_sub (r : regex) (s : pystr) : pystr := sub_from r O s.

(** The positions that [re.sub(r, '', s)] keeps ([true]) and drops
    ([false]), in step with [sub_from]. *)
Fixpoint kept_from (r : regex) (skip : nat) (s : pystr) : list bool :=
  match s with
  | [] => []
  | c :: s' =>
      match skip with
      | S k => false :: kept_from r k s'
      | O =>
          match match_regex r s with
          | Some (S n) => false :: kept_from r n s'
          | _ => true :: kept_from r O s'
          end
      end
  end.

(** The characters of [s] at the positions that [mask] keeps. *)
Fixpoint select (mask : list bool) (s : pystr) : pystr :=
  match mask, s with
  | b :: mask', c :: s' => if b then c :: select mask' s' else select mask' s'
  | _, _ => []
  end.

(** [s.strip()] *)
Fixpoint lstrip `{Unicode} (s : pystr) : pystr :=
  match s with
  | c :: s' => if py_isspace c then lstrip s' else s
  | [] => []
  end.

Definition rstrip `{Unicode} (s : pystr) : pystr := rev (lstrip (rev s)).

Definition strip `{Unicode} (s : pystr) : pystr := rstrip (lstrip s).

(** [re.escape(word)] compiled with [re.IGNORECASE]: the characters of
    [word], each one literally and up to case. *)
Definition escape_ignorecase `{Unicode} (word : pystr) : regex :=
  [List.map (fun p => (sre_ignorecase p, One)) word].

(** [re.search(re.escape(word), s, re.IGNORECASE) is not None] *)
Fixpoint prefix_ic `{Unicode} (word s : pystr) : bool :=
  match word, s with
  | [], _ => true
  | p :: word', c :: s' => sre_ignorecase p c && prefix_ic word' s'
  | _ :: _, [] => false
  end.

Fixpoint occurs_ic `{Unicode} (word s : pystr) : bool :=
  prefix_ic word s ||
  match s with
  | [] => false
  | _ :: s' => occurs_ic word s'
  end.

(** ** Data model *)

(** History file: item key (message id or attachment url) to the time it
    was recorded, as an ISO-8601 string. *)
Abbreviation History := (gmap (list N) (list N)).

(** [key in history] *)
Definition in_history (key : pystr) (h : History) : bool :=
  bool_decide (is_Some (h !! key)).

Record Field := { f_name : option pystr; f_value : option pystr }.

Record Embed := {
  e_title : option pystr;
  e_description : option pystr;
  e_fields : option (list Field)
}.

Record Attachment := { a_url : pystr; a_content_type : option pystr }.

Record Message := {
  m_id : pystr;
  m_timestamp : pystr;
  m_content : option pystr;
  m_embeds : list Embed;
  m_attachments : list Attachment
}.

(** A Telegram chat or thread identifier, as written in [config.json]. *)
Inductive tg_id := IdInt (z : Z) | IdStr (s : pystr).

Record Config := {
  DISCORD_BOT_TOKEN : option pystr;
  TELEGRAM_BOT_TOKEN : option pystr;
  CHANNEL_MAPPING : list (pystr * (tg_id * tg_id));
  FILTER_WORDS : list pystr;
  MESSAGE_WINDOW_HOURS : Z
}.

(** One entry of the [media] list of [sendMediaGroup]; [parse_mode] is set
    exactly when the caption is. *)
Record MediaItem := { media : pystr; caption : option pystr }.

(** The three calls of the Telegram Bot API that the program makes. *)
Inductive Request :=
| SendMediaGroup (chat_id thread_id : tg_id) (items : list MediaItem)
| SendPhoto (chat_id thread_id : tg_id) (photo : pystr) (cap : option pystr)
| SendMessage (chat_id thread_id : tg_id) (text : pystr).

Inductive Level := INFO | WARNING | ERROR.

Inductive LogMsg :=
| CouldNotParseTimestamp (ts : pystr)
| ErrorFetchingFromDiscord
| SentMediaGroupWith (n : nat)
| SentSinglePhoto
| SentTextOnly
| FailedToSend
| ProcessingChannel (channel : pystr)
| NoMessagesFound (channel : pystr)
| ProcessedNew (n : nat) (channel : pystr)
| StartingMirror
| FatalTokenNotSet
| MirrorRunFinished.

(** What the program does to the outside, in the order it does it.  A
    post is recorded with its outcome: [false] when it raised. *)
Inductive Event :=
| EvLog (level : Level) (msg : LogMsg)
| EvLoad
| EvSave (h : History)
| EvFetch (channel : pystr)
| EvPost (req : Request) (ok : bool)
| EvNow
| EvSleep (seconds : Z).

(** The outside: the tracking file and the events so far, latest first. *)
Record World := {
  file : option History;   (* [None]: no file, or not valid JSON *)
  trace : list Event
}.

(** The answers of the outside.  An answer may depend on how much has
    happened before, the number of events so far. *)
Record Env := {
  (** [requests.get] on a channel: [None] for a [RequestException],
      otherwise the messages of the response, in the order received *)
  discord_get : nat -> pystr -> option (list Message);
  (** [requests.post]: [false] for a [RequestException] *)
  telegram_post : nat -> Request -> bool;
  (** UTC clock, in microseconds *)
  utc_clock : nat -> Z;
  (** offset of the local time zone, in microseconds *)
  local_offset : Z
}.

(** ** Dates *)

(** A [datetime]: calendar fields as microseconds, and the UTC offset of
    its [tzinfo] when it has one. *)
Record datetime := { wall : Z; tzinfo : option Z }.

Class DateTime := {
  (** [datetime.fromisoformat]; [None] for a [ValueError] *)
  fromisoformat : pystr -> option datetime;
  (** [isoformat()] of a naive [datetime] *)
  isoformat : Z -> pystr
}.

Inductive exn := TypeError | OverflowError.

Inductive result (A : Type) :=
| Ok (a : A)
| Raise (e : exn).
Arguments Ok {A} a.
Arguments Raise {A} e.

(** [a - b] on two [datetime]s; mixing naive and aware is a [TypeError]. *)
Definition datetime_sub (a b : datetime) : result Z :=
  match tzinfo a, tzinfo b with
  | None, None => Ok (wall a - wall b)%Z
  | Some oa, Some ob => Ok ((wall a - oa) - (wall b - ob))%Z
  | _, _ => Raise TypeError
  end.

(** [timedelta(hours=h)], in microseconds; more than 999999999 days is an
    [OverflowError]. *)
Definition timedelta_hours (h : Z) : result Z :=
  if ((-999999999 <=? h / 24) && (h / 24 <=? 999999999))%Z
  then Ok (h * 3600000000)%Z
  else Raise OverflowError.

(** ** The program as a state and error monad over [World] *)

Definition M (A : Type) : Type := World -> result A * World.

Definition ret {A} (a : A) : M A := fun w => (Ok a, w).

Definition bind {A B} (c : M A) (k : A -> M B) : M B :=
  fun w =>
    match c w with
    | (Ok a, w') => k a w'
    | (Raise e, w') => (Raise e, w')
    end.

Definition raise {A} (e : exn) : M A := fun w => (Raise e, w).

Definition lift {A} (r : result A) : M A := fun w => (r, w).

Notation "x <- c ;; k" := (bind c (fun x => k))
  (at level 20, c at level 99, k at level 200, only parsing).
Notation "c ;; k" := (bind c (fun _ => k))
  (at level 100, k at level 200, only parsing).

(** Record an event. *)
Definition emit (e : Event) : M unit :=
  fun w => (Ok tt, {| file := file w; trace := e :: trace w |}).

(** The number of events so far, the argument of the answers of [Env]. *)
Definition ticks : M nat := fun w => (Ok (List.length (trace w)), w).

(** [for x in l: acc = body(acc, x)] *)
Fixpoint for_each {A S} (body : S -> A -> M S) (l : list A) (acc : S) : M S :=
  match l with
  | [] => ret acc
  | x :: l' => acc' <- body acc x ;; for_each body l' acc'
  end.

(** ** The functions of [main.py] *)

Definition chr (a : ascii) : N := N.of_nat (nat_of_ascii a).

Definition is_chr (a : ascii) : N -> bool := fun c => c =? chr a.

Section Program.

Context `{Unicode} `{DateTime}.
Variable cfg : Config.
Variable env : Env.

Definition log (message : LogMsg) (level : Level) : M unit :=
  emit (EvLog level message).

Definition filter_content (content : option pystr) : pystr :=
  match content with
  | None | Some [] => []
  | Some content =>
      strip (fold_left (fun content word => re_sub (escape_ignorecase word) content)
                       (FILTER_WORDS cfg) content)
  end.

(** A missing or unreadable file reads as the empty history. *)
Definition load_upload_history : M History :=
  emit EvLoad ;;
  fun w => (Ok (default ∅ (file w)), w).

Definition save_upload_history (history : History) : M unit :=
  emit (EvSave history) ;;
  fun w => (Ok tt, {| file := Some history; trace := trace w |}).

(** [datetime.now(tz)] *)
Definition datetime_now (tz : option Z) : M datetime :=
  n <- ticks ;;
  emit EvNow ;;
  ret {| wall := (utc_clock env n + default (local_offset env) tz)%Z; tzinfo := tz |}.

(** [datetime.utcnow()], naive. *)
Definition datetime_utcnow : M Z :=
  n <- ticks ;;
  emit EvNow ;;
  ret (utc_clock env n).

Definition is_within_window (message_timestamp : pystr) : M bool :=
  match fromisoformat (replace_char (chr "Z") (u "+00:00") message_timestamp) with
  | None =>
      log (CouldNotParseTimestamp message_timestamp) ERROR ;;
      ret false
  | Some msg_time =>
      now <- datetime_now (tzinfo msg_time) ;;
      age <- lift (datetime_sub now msg_time) ;;
      window <- lift (timedelta_hours (MESSAGE_WINDOW_HOURS cfg)) ;;
      ret (age <? window)%Z
  end.

(** [sorted(l, key=lambda x: x['timestamp'])]: stable. *)
Fixpoint insert_sorted (x : Message) (l : list Message) : list Message :=
  match l with
  | [] => [x]
  | y :: l' =>
      if str_ltb (m_timestamp y) (m_timestamp x)
      then y :: insert_sorted x l'
      else x :: l
  end.

Definition sorted_by_timestamp (l : list Message) : list Message :=
  fold_right insert_sorted [] l.

Definition get_discord_messages (channel_id : pystr) : M (option (list Message)) :=
  n <- ticks ;;
  emit (EvFetch channel_id) ;;
  match discord_get env n channel_id with
  | Some response => ret (Some (sorted_by_timestamp response))
  | None =>
      log ErrorFetchingFromDiscord ERROR ;;
      ret None
  end.

(** [<a?:\w+:\d+>] *)
Definition custom_emoji : regex :=
  [[(is_chr "<", One); (is_chr "a", Opt); (is_chr ":", One); (sre_word, Plus);
    (is_chr ":", One); (sre_digit, Plus); (is_chr ">", One)]].

(** [<@!?\d+>|<@&\d+>|<#\d+>] *)
Definition mention : regex :=
  [[(is_chr "<", One); (is_chr "@", One); (is_chr "!", Opt); (sre_digit, Plus);
    (is_chr ">", One)];
   [(is_chr "<", One); (is_chr "@", One); (is_chr "&", One); (sre_digit, Plus);
    (is_chr ">", One)];
   [(is_chr "<", One); (is_chr "#", One); (sre_digit, Plus); (is_chr ">", One)]].

(** [[*_~`|]] *)
Definition formatting : regex :=
  [[(fun c => is_chr "*" c || is_chr "_" c || is_chr "~" c || is_chr "`" c
              || is_chr "|" c, One)]].

Definition clean_content_for_telegram (content : option pystr) : pystr :=
  match content with
  | None | Some [] => []
  | Some content =>
      let content := re_sub custom_emoji content in
      let content := re_sub mention content in
      let content := re_sub formatting content in
      filter_content (Some content)
  end.

(** The [parts] that the fields of an embed add. *)
Definition field_parts (fields : list Field) : list pystr :=
  flat_map (fun field =>
    let name := filter_content (f_name field) in
    let value := clean_content_for_telegram (f_value field) in
    if nonempty name && nonempty value
    then [u "**" ++ name ++ u "**" ++ [chr "010"] ++ value]
    else []) fields.

Definition process_embed (embed : Embed) : pystr :=
  let title := filter_content (e_title embed) in
  let description := clean_content_for_telegram (e_description embed) in
  let parts :=
    (if nonempty title then [u "**" ++ title ++ u "**"] else [])
    ++ (if nonempty description then [description] else [])
    ++ match e_fields embed with
       | Some fields => field_parts fields
       | None => []
       end in
  join [chr "010"; chr "010"] parts.

(** The loop that fills [media]: [i] is the index of [url] in
    [image_urls], counted over the urls that are skipped as well. *)
Fixpoint build_media (history : History) (text_content : option pystr)
    (i : nat) (image_urls : list pystr) : list MediaItem :=
  match image_urls with
  | [] => []
  | url :: rest =>
      if in_history url history then build_media history text_content (S i) rest
      else
        {| media := url;
           caption := if Nat.eqb i 0 && truthy text_content
                      then text_content else None |}
        :: build_media history text_content (S i) rest
  end.

(** [requests.post]; the answer is [false] for a [RequestException]. *)
Definition post (req : Request) : M bool :=
  n <- ticks ;;
  let ok := telegram_post env n req in
  emit (EvPost req ok) ;;
  ret ok.

(** The end of the [try] block, after a send that did not raise:
    [[url for url in image_urls]] is a [TypeError] on [None]. *)
Definition sent_items (image_urls : option (list pystr)) : M (bool * list pystr) :=
  match image_urls with
  | Some urls => ret (true, urls)
  | None => raise TypeError
  end.

Definition send_to_telegram (chat_id thread_id : tg_id)
    (text_content : option pystr) (image_urls : option (list pystr))
  : M (bool * list pystr) :=
  history <- load_upload_history ;;
  let media_list :=
    match image_urls with
    | Some urls => build_media history text_content 0 urls
    | None => []
    end in
  let failed := log FailedToSend ERROR ;; ret (false, []) in
  match media_list with
  | _ :: _ :: _ =>
      ok <- post (SendMediaGroup chat_id thread_id media_list) ;;
      if ok then
        log (SentMediaGroupWith (List.length media_list)) INFO ;;
        sent_items image_urls
      else failed
  | [item] =>
      ok <- post (SendPhoto chat_id thread_id (media item) (caption item)) ;;
      if ok then log SentSinglePhoto INFO ;; sent_items image_urls
      else failed
  | [] =>
      match text_content with
      | Some (c :: text) =>
          ok <- post (SendMessage chat_id thread_id (c :: text)) ;;
          if ok then log SentTextOnly INFO ;; sent_items image_urls
          else failed
      | _ => ret (false, [])
      end
  end.

(** [full_text] of a message. *)
Definition full_text (message : Message) : pystr :=
  let content := clean_content_for_telegram (m_content message) in
  let text_parts :=
    (if nonempty content then [content] else [])
    ++ flat_map (fun embed =>
         let embed_text := process_embed embed in
         if nonempty embed_text then [embed_text] else []) (m_embeds message) in
  join [chr "010"; chr "010"] text_parts.

(** [image_urls] of a message. *)
Definition image_urls_of (message : Message) : list pystr :=
  List.map a_url
    (List.filter (fun attach =>
       contains (u "image") (default [] (a_content_type attach)))
     (m_attachments message)).

Definition REQUEST_DELAY : Z := 3.

(** [for item in sent_items: history[item] = utcnow().isoformat()] *)
Definition record_items (items : list pystr) (history : History) : M History :=
  for_each (fun history item =>
    t <- datetime_utcnow ;;
    ret (<[item := isoformat t]> history)) items history.

(** The body of the loop of [process_channel], on the local variables
    [history] and [processed_count]. *)
Definition process_message (tg_chat tg_thread : tg_id)
    (st : History * nat) (message : Message) : M (History * nat) :=
  let '(history, processed_count) := st in
  let message_id := m_id message in
  if in_history message_id history then ret st
  else
    recent <- is_within_window (m_timestamp message) ;;
    if negb recent then ret st
    else
      r <- send_to_telegram tg_chat tg_thread (Some (full_text message))
             (Some (image_urls_of message)) ;;
      let '(success, sent) := r in
      st' <- (if success then
                t <- datetime_utcnow ;;
                history <- record_items sent (<[message_id := isoformat t]> history) ;;
                ret (history, S processed_count)
              else ret st) ;;
      save_upload_history (fst st') ;;
      emit (EvSleep REQUEST_DELAY) ;;
      ret st'.

Definition process_channel (discord_channel : pystr) (tg_chat tg_thread : tg_id)
  : M unit :=
  log (ProcessingChannel discord_channel) INFO ;;
  messages <- get_discord_messages discord_channel ;;
  match messages with
  | None | Some [] => log (NoMessagesFound discord_channel) WARNING
  | Some messages =>
      history <- load_upload_history ;;
      st <- for_each (process_message tg_chat tg_thread) messages (history, O) ;;
      log (ProcessedNew (snd st) discord_channel) INFO
  end.

(** The loop of [main] over the mappings, in their order in the file. *)
Definition run_mappings (mappings : list (pystr * (tg_id * tg_id))) : M unit :=
  for_each (fun _ '(discord_channel, (tg_chat, tg_thread)) =>
    process_channel discord_channel tg_chat tg_thread) mappings tt.

Definition main : M unit :=
  log StartingMirror INFO ;;
  if truthy (DISCORD_BOT_TOKEN cfg) && truthy (TELEGRAM_BOT_TOKEN cfg) then
    run_mappings (CHANNEL_MAPPING cfg) ;;
    log MirrorRunFinished INFO
  else log FatalTokenNotSet ERROR.

End Program.

(** ** An instance of the tables, to run the program

    [iso8601] reads and prints timestamps of the form
    [YYYY-MM-DDTHH:MM:SS[.ffffff][+HH:MM]], the form Discord sends and
    [isoformat()] prints.  Times are microseconds since 1970-01-01. *)

Module Sample.

Local Open Scope Z_scope.

Definition digit (c : N) : option Z :=
  if ((48 <=? c) && (c <=? 57))%N then Some (Z.of_N c - 48) else None.

(** Reads exactly [n] decimal digits. *)
Fixpoint digits (n : nat) (acc : Z) (s : pystr) : option (Z * pystr) :=
  match n with
  | O => Some (acc, s)
  | S n' =>
      match s with
      | c :: s' =>
          match digit c with
          | Some d => digits n' (10 * acc + d) s'
          | None => None
          end
      | [] => None
      end
  end.

Definition expect (a : ascii) (s : pystr) : option pystr :=
  match s with
  | c :: s' => if (c =? chr a)%N then Some s' else None
  | [] => None
  end.

Definition is_leap (y : Z) : bool :=
  (y mod 4 =? 0) && (negb (y mod 100 =? 0) || (y mod 400 =? 0)).

Definition days_in_month (y m : Z) : Z :=
  if m =? 2 then (if is_leap y then 29 else 28)
  else if (m =? 4) || (m =? 6) || (m =? 9) || (m =? 11) then 30 else 31.

(** Days from 1970-01-01 to the given date of the Gregorian calendar. *)
Definition days_from_civil (y m d : Z) : Z :=
  let y := if m <=? 2 then y - 1 else y in
  let era := y / 400 in
  let yoe := y - era * 400 in
  let doy := (153 * (if 2 <? m then m - 3 else m + 9) + 2) / 5 + d - 1 in
  let doe := yoe * 365 + yoe / 4 - yoe / 100 + doy in
  era * 146097 + doe - 719468.

(** The inverse: year, month and day of a day number. *)
Definition civil_from_days (z : Z) : Z * Z * Z :=
  let z := z + 719468 in
  let era := z / 146097 in
  let doe := z - era * 146097 in
  let yoe := (doe - doe / 1460 + doe / 36524 - doe / 146096) / 365 in
  let doy := doe - (365 * yoe + yoe / 4 - yoe / 100) in
  let mp := (5 * doy + 2) / 153 in
  let d := doy - (153 * mp + 2) / 5 + 1 in
  let m := if mp <? 10 then mp + 3 else mp - 9 in
  (if m <=? 2 then yoe + era * 400 + 1 else yoe + era * 400, m, d).

Definition parse_offset (s : pystr) : option (option Z) :=
  match s with
  | [] => Some None
  | c :: s' =>
      sign ← (if (c =? chr "+")%N then Some 1
               else if (c =? chr "-")%N then Some (-1) else None) ;
      '(hh, s1) ← digits 2 0 s' ;
      s2 ← expect ":" s1 ;
      '(mm, s3) ← digits 2 0 s2 ;
      match s3 with
      | [] => if (hh <? 24) && (mm <? 60)
              then Some (Some (sign * (hh * 3600 + mm * 60) * 1000000))
              else None
      | _ :: _ => None
      end
  end.

Definition parse_iso (s : pystr) : option datetime :=
  '(y, s) ← digits 4 0 s ;
  s ← expect "-" s ;
  '(m, s) ← digits 2 0 s ;
  s ← expect "-" s ;
  '(d, s) ← digits 2 0 s ;
  s ← expect "T" s ;
  '(hh, s) ← digits 2 0 s ;
  s ← expect ":" s ;
  '(mm, s) ← digits 2 0 s ;
  s ← expect ":" s ;
  '(ss, s) ← digits 2 0 s ;
  '(us, s) ← match expect "." s with
              | Some s' => digits 6 0 s'
              | None => Some (0, s)
              end ;
  tz ← parse_offset s ;
  if (1 <=? y) && (1 <=? m) && (m <=? 12) && (1 <=? d) && (d <=? days_in_month y m)
     && (hh <? 24) && (mm <? 60) && (ss <? 60)
  then Some {| wall := (days_from_civil y m d * 86400 + hh * 3600 + mm * 60 + ss)
                       * 1000000 + us;
               tzinfo := tz |}
  else None.

(** The last [n] decimal digits of [z], most significant first. *)
Fixpoint pad (n : nat) (z : Z) : pystr :=
  match n with
  | O => []
  | S n' => pad n' (z / 10) ++ [Z.to_N (48 + z mod 10)]
  end.

Definition print_iso (t : Z) : pystr :=
  let '(y, m, d) := civil_from_days (t / 86400000000) in
  let us := t mod 86400000000 in
  let secs := us / 1000000 in
  pad 4 y ++ [chr "-"] ++ pad 2 m ++ [chr "-"] ++ pad 2 d ++ [chr "T"]
  ++ pad 2 (secs / 3600) ++ [chr ":"] ++ pad 2 (secs / 60 mod 60) ++ [chr ":"]
  ++ pad 2 (secs mod 60)
  ++ (if us mod 1000000 =? 0 then [] else [chr "."] ++ pad 6 (us mod 1000000)).

Definition iso8601 : DateTime :=
  {| fromisoformat := parse_iso; isoformat := print_iso |}.

(** A configuration with two banned phrases and two channels. *)
Definition config : Config := {|
  DISCORD_BOT_TOKEN := Some (u "discord-token");
  TELEGRAM_BOT_TOKEN := Some (u "telegram-token");
  CHANNEL_MAPPING := [(u "100", (IdInt (-1001), IdInt 7));
                      (u "200", (IdInt (-1002), IdInt 8))];
  FILTER_WORDS := [u "ab"; u "!"];
  MESSAGE_WINDOW_HOURS := 1
|}.

(** 2024-01-01T00:00:00 UTC *)
Definition t0 : Z := 1704067200000000.

Definition minutes (n : Z) : Z := n * 60000000.

(** Worlds and answers of the outside for the examples. *)
Definition world_of (h : option History) : World := {| file := h; trace := [] |}.

Definition env_of (items : pystr -> option (list Message)) (post_ok : bool)
    (clock : nat -> Z) : Env :=
  {| discord_get := fun _ channel => items channel;
     telegram_post := fun _ _ => post_ok;
     utc_clock := clock;
     local_offset := 0 |}.

Definition no_items : pystr -> option (list Message) := fun _ => None.

Definition chat : tg_id := IdInt (-1001).
Definition thread : tg_id := IdInt 7.

Definition message_42 : Message := {|
  m_id := u "42";
  m_timestamp := u "2024-01-01T00:00:00Z";
  m_content := Some (u "hello **world**");
  m_embeds := [];
  m_attachments := []
|}.

Definition history_42 : History := {[ u "42" := u "2023-12-31T23:00:00" ]}.

(** A message whose text is markup only and whose attachment is a video. *)
Definition message_empty : Message := {|
  m_id := u "43";
  m_timestamp := u "2024-01-01T00:00:00Z";
  m_content := Some (u "** <@!12> **");
  m_embeds := [{| e_title := None; e_description := Some (u "__");
                  e_fields := Some [{| f_name := Some (u "N"); f_value := None |}] |}];
  m_attachments := [{| a_url := u "https://cdn/clip.mp4";
                       a_content_type := Some (u "video/mp4") |}]
|}.

Definition history_u0 : History := {[ u "https://cdn/0.png" := u "2023-12-31T23:00:00" ]}.

Definition three_urls : list pystr :=
  [u "https://cdn/0.png"; u "https://cdn/1.png"; u "https://cdn/2.png"].

(** Channel 200 has one message; the fetch of every other channel fails. *)
Definition items_200 (channel : pystr) : option (list Message) :=
  if bool_decide (channel = u "200") then Some [message_42] else None.

Definition message_44 : Message := {|
  m_id := u "44";
  m_timestamp := u "2024-01-01T00:00:30Z";
  m_content := Some (u "second");
  m_embeds := [];
  m_attachments := []
|}.

Definition history_two : History :=
  {[ u "42" := u "2023-12-31T23:00:00"; u "44" := u "2023-12-31T23:00:05" ]}.

(** Every channel has the same two messages. *)
Definition items_two (channel : pystr) : option (list Message) :=
  Some [message_44; message_42].

(** Both channels answer with the two messages, every post succeeds and
    the clock advances by one second with each event. *)
Definition env_ticking : Env :=
  env_of items_two true (fun n => t0 + Z.of_nat n * 1000000).

Definition png (url : pystr) : Attachment :=
  {| a_url := url; a_content_type := Some (u "image/png") |}.

(** A text and three images. *)
Definition message_album : Message := {|
  m_id := u "45";
  m_timestamp := u "2024-01-01T00:00:00+00:00";
  m_content := Some (u "caption");
  m_embeds := [];
  m_attachments := List.map png three_urls
|}.

(** Two images and no text. *)
Definition message_pair : Message := {|
  m_id := u "46";
  m_timestamp := u "2024-01-01T00:00:00+00:00";
  m_content := None;
  m_embeds := [];
  m_attachments := [png (u "https://cdn/0.png"); png (u "https://cdn/1.png")]
|}.

(** An embed with a title and three fields, the second without a value. *)
Definition fields_before : list Field :=
  [{| f_name := Some (u "Server"); f_value := Some (u "eu-1") |}].

Definition field_without_value : Field :=
  {| f_name := Some (u "Notes"); f_value := Some (u "**") |}.

Definition fields_behind : list Field :=
  [{| f_name := Some (u "Status"); f_value := Some (u "up") |}].

(** A message one day older than the others. *)
Definition timestamp_old : pystr := u "2023-12-31T00:00:00Z".

End Sample.

(** * Properties *)

(** ** Vocabulary *)

Definition events_of (p : Event -> bool) (t : list Event) : list Event :=
  List.filter p t.

Definition is_post (e : Event) : bool :=
  match e with EvPost _ _ => true | _ => false end.

Definition is_failed_post (e : Event) : bool :=
  match e with EvPost _ false => true | _ => false end.

Definition is_load (e : Event) : bool :=
  match e with EvLoad => true | _ => false end.

Definition is_save (e : Event) : bool :=
  match e with EvSave _ => true | _ => false end.

(** The content of the history store: what a load would return. *)
Definition stored (w : World) : History := default ∅ (file w).

(** The world with some more events. *)
Definition after (evs : list Event) (w : World) : World :=
  {| file := file w; trace := evs ++ trace w |}.

Definition is_fetch (e : Event) : bool :=
  match e with EvFetch _ => true | _ => false end.

Definition is_ok_post (e : Event) : bool :=
  match e with EvPost _ true => true | _ => false end.

(** The chat and the thread that a request is addressed to. *)
Definition request_dest (req : Request) : tg_id * tg_id :=
  match req with
  | SendMediaGroup chat_id thread_id _ => (chat_id, thread_id)
  | SendPhoto chat_id thread_id _ _ => (chat_id, thread_id)
  | SendMessage chat_id thread_id _ => (chat_id, thread_id)
  end.

(** [a] is not behind [b] in the order of the timestamps. *)
Definition timestamp_le (a b : Message) : Prop :=
  str_ltb (m_timestamp b) (m_timestamp a) = false.

Definition has_timestamp (ts : pystr) (m : Message) : bool :=
  bool_decide (m_timestamp m = ts).

(** The five characters of the class [[*_~`|]]. *)
Definition is_formatting (c : N) : bool :=
  is_chr "*" c || is_chr "_" c || is_chr "~" c || is_chr "`" c || is_chr "|" c.

(** The urls that are not yet keys of the history, in their order. *)
Definition eligible (history : History) (urls : list pystr) : list pystr :=
  List.filter (fun url => negb (in_history url history)) urls.

(** Between [w] and [w'] only events of [P] happened. *)
Definition emits (P : Event -> Prop) (w w' : World) : Prop :=
  exists evs, trace w' = evs ++ trace w /\ Forall P evs.


(** A custom emoji as Discord writes it: [<:name:id>], or [<a:name:id>]
    when animated. *)
Definition emoji_token (animated : bool) (name id : pystr) : pystr :=
  [chr "<"] ++ (if animated then [chr "a"] else []) ++ [chr ":"] ++ name
  ++ [chr ":"] ++ id ++ [chr ">"].

(** The four kinds of mention: of a user ([<@id>], [<@!id>]), of a role
    ([<@&id>]) and of a channel ([<#id>]). *)
Inductive mention_kind := UserMention | NickMention | RoleMention | ChannelMention.

Definition mention_sigil (kind : mention_kind) : pystr :=
  match kind with
  | UserMention => [chr "@"]
  | NickMention => [chr "@"; chr "!"]
  | RoleMention => [chr "@"; chr "&"]
  | ChannelMention => [chr "#"]
  end.

Definition mention_token (kind : mention_kind) (id : pystr) : pystr :=
  [chr "<"] ++ mention_sigil kind ++ id ++ [chr ">"].

(** What the theorems on tokens need of the classes [\w] and [\d]: the
    colon is no word character, and [<], [>], [&] and [!] are no digits. *)
Definition classes_exclude_punctuation `{Unicode} : Prop :=
  sre_word (chr ":") = false
  /\ sre_digit (chr "<") = false /\ sre_digit (chr ">") = false
  /\ sre_digit (chr "&") = false /\ sre_digit (chr "!") = false.

(** Whatever the world, the computation adds only events of [P]. *)
Definition only (P : Event -> Prop) {A} (c : M A) : Prop :=
  forall w, emits P w (snd (c w)).

(** The events of the loop for one destination: no fetch, and posts to
    that chat and thread only. *)
Definition step_event (chat thread : tg_id) (e : Event) : Prop :=
  match e with
  | EvFetch _ => False
  | EvPost req _ => request_dest req = (chat, thread)
  | _ => True
  end.

(** The events of a run: posts to the destinations of the mapping only. *)
Definition run_event (mappings : list (pystr * (tg_id * tg_id))) (e : Event) : Prop :=
  match e with
  | EvPost req _ => exists channel, In (channel, request_dest req) mappings
  | _ => True
  end.

Section Properties.

Context `{Unicode} `{DateTime}.
Variable cfg : Config.
Variable env : Env.

(** What [datetime.now(tz)] reads in the world [w]. *)
Definition now_wall (w : World) (tz : option Z) : Z :=
  (utc_clock env (List.length (trace w)) + default (local_offset env) tz)%Z.

(** What the forwarder does with a text and a list of urls: the answer
    and the events. *)
Inductive send_outcome (text : pystr) (urls : list pystr) (w : World)
  : bool * list pystr -> list Event -> Prop :=
| NothingToSend :
    text = [] ->
    build_media (stored w) (Some text) 0 urls = [] ->
    send_outcome text urls w (false, []) [EvLoad]
| SendFailed req :
    text <> [] \/ build_media (stored w) (Some text) 0 urls <> [] ->
    telegram_post env (S (List.length (trace w))) req = false ->
    send_outcome text urls w (false, [])
      [EvLog ERROR FailedToSend; EvPost req false; EvLoad]
| SendDone req msg :
    text <> [] \/ build_media (stored w) (Some text) 0 urls <> [] ->
    telegram_post env (S (List.length (trace w))) req = true ->
    send_outcome text urls w (true, urls) [EvLog INFO msg; EvPost req true; EvLoad].

(** The six ways through the body of the loop: the result and the world
    behind it. *)
Inductive step_outcome (history : History) (n : nat) (message : Message) (w : World)
  : result (History * nat) -> World -> Prop :=
| StepSkipped :
    in_history (m_id message) history = true ->
    step_outcome history n message w (Ok (history, n)) w
| StepUnparsed :
    in_history (m_id message) history = false ->
    fromisoformat (replace_char (chr "Z") (u "+00:00") (m_timestamp message)) = None ->
    step_outcome history n message w (Ok (history, n))
      (after [EvLog ERROR (CouldNotParseTimestamp (m_timestamp message))] w)
| StepOverflow t e :
    in_history (m_id message) history = false ->
    fromisoformat (replace_char (chr "Z") (u "+00:00") (m_timestamp message)) = Some t ->
    timedelta_hours (MESSAGE_WINDOW_HOURS cfg) = Raise e ->
    step_outcome history n message w (Raise e) (after [EvNow] w)
| StepOld t window :
    in_history (m_id message) history = false ->
    fromisoformat (replace_char (chr "Z") (u "+00:00") (m_timestamp message)) = Some t ->
    timedelta_hours (MESSAGE_WINDOW_HOURS cfg) = Ok window ->
    (now_wall w (tzinfo t) - wall t <? window)%Z = false ->
    step_outcome history n message w (Ok (history, n)) (after [EvNow] w)
| StepNotSent t window evs :
    in_history (m_id message) history = false ->
    fromisoformat (replace_char (chr "Z") (u "+00:00") (m_timestamp message)) = Some t ->
    timedelta_hours (MESSAGE_WINDOW_HOURS cfg) = Ok window ->
    (now_wall w (tzinfo t) - wall t <? window)%Z = true ->
    send_outcome (full_text cfg message) (image_urls_of message) (after [EvNow] w)
      (false, []) evs ->
    step_outcome history n message w (Ok (history, n))
      {| file := Some history;
         trace := EvSleep REQUEST_DELAY :: EvSave history :: evs ++ EvNow :: trace w |}
| StepSent t window evs nows history' :
    in_history (m_id message) history = false ->
    fromisoformat (replace_char (chr "Z") (u "+00:00") (m_timestamp message)) = Some t ->
    timedelta_hours (MESSAGE_WINDOW_HOURS cfg) = Ok window ->
    (now_wall w (tzinfo t) - wall t <? window)%Z = true ->
    send_outcome (full_text cfg message) (image_urls_of message) (after [EvNow] w)
      (true, image_urls_of message) evs ->
    Forall (eq EvNow) nows ->
    (forall key, in_history key history' = true
                 <-> in_history key history = true \/ key = m_id message
                     \/ In key (image_urls_of message)) ->
    step_outcome history n message w (Ok (history', S n))
      {| file := Some history';
         trace := EvSleep REQUEST_DELAY :: EvSave history'
                  :: nows ++ evs ++ EvNow :: trace w |}.

Definition grows (h h' : History) : Prop :=
  forall key, in_history key h = true -> in_history key h' = true.

(** [w'] comes after [w]: more events, and no key has left the store. *)
Definition later (w w' : World) : Prop :=
  (exists evs, trace w' = evs ++ trace w) /\ grows (stored w) (stored w').

(** [w'] comes after [w], and between them nothing was posted and the
    content of the store stayed the same. *)
Definition quiet (w w' : World) : Prop :=
  (exists evs, trace w' = evs ++ trace w /\ events_of is_post evs = [])
  /\ stored w' = stored w.

(** From the [k0]-th event on, the clock is never less than [window]
    after [t]. *)
Definition never_recent_from (t : datetime) (window : Z) (k0 : nat) : Prop :=
  forall k, (k0 <= k)%nat ->
    (utc_clock env k + default (local_offset env) (tzinfo t) - wall t <? window)%Z = false.

(** A message that no later step will send: it is in the store, or its
    timestamp does not parse, or the window cannot be built, or it has left
    the window, or it has no text and all its images are in the store. *)
Definition settled (message : Message) (w : World) : Prop :=
  in_history (m_id message) (stored w) = true
  \/ fromisoformat (replace_char (chr "Z") (u "+00:00") (m_timestamp message)) = None
  \/ (exists e, timedelta_hours (MESSAGE_WINDOW_HOURS cfg) = Raise e)
  \/ (exists t window,
        fromisoformat (replace_char (chr "Z") (u "+00:00") (m_timestamp message)) = Some t
        /\ timedelta_hours (MESSAGE_WINDOW_HOURS cfg) = Ok window
        /\ never_recent_from t window (List.length (trace w)))
  \/ (full_text cfg message = []
      /\ Forall (fun url => in_history url (stored w) = true) (image_urls_of message)).

(** The answer of the fetch of a channel does not change with time. *)
Definition fetch_is_fixed : Prop :=
  forall i j channel, discord_get env i channel = discord_get env j channel.

(** The clock does not go back. *)
Definition clock_is_monotone : Prop :=
  forall i j, (i <= j)%nat -> (utc_clock env i <= utc_clock env j)%Z.

(** Every message that the fetch of [channel] gives is settled. *)
Definition channel_settled (channel : pystr) (w : World) : Prop :=
  forall response m,
    discord_get env O channel = Some response -> In m response -> settled m w.

Definition mappings_settled (mappings : list (pystr * (tg_id * tg_id))) (w : World)
  : Prop :=
  forall channel chat thread,
    In (channel, (chat, thread)) mappings -> channel_settled channel w.

(** ** Running the monad *)

Lemma bind_Ok {A B} (c : M A) (k : A -> M B) w a w' :
  c w = (Ok a, w') -> bind c k w = k a w'.
Proof. intros E. unfold bind. now rewrite E. Qed.

Lemma bind_Raise {A B} (c : M A) (k : A -> M B) w e w' :
  c w = (Raise e, w') -> bind c k w = (Raise e, w').
Proof. intros E. unfold bind. now rewrite E. Qed.

Lemma bind_inv {A B} (c : M A) (k : A -> M B) w r w2 :
  bind c k w = (r, w2) ->
  (exists a w1, c w = (Ok a, w1) /\ k a w1 = (r, w2)) \/
  (exists e, c w = (Raise e, w2) /\ r = Raise e).
Proof.
  unfold bind. destruct (c w) as [[a|e] w1]; intros E.
  - left. eauto.
  - right. exists e. now inversion E.
Qed.

Lemma fold_left_pointwise {A B} (f g : A -> B -> A) l a :
  (forall a b, f a b = g a b) -> fold_left f l a = fold_left g l a.
Proof.
  intros E. revert a. induction l as [|b l IH]; intros a; simpl; [reflexivity|].
  now rewrite E, IH.
Qed.

Lemma for_each_app {A S} (body : S -> A -> M S) l1 l2 acc :
  forall w, for_each body (l1 ++ l2) acc w
            = bind (for_each body l1 acc) (for_each body l2) w.
Proof.
  revert acc. induction l1 as [|x l1 IH]; intros acc w; simpl.
  - reflexivity.
  - unfold bind in *. destruct (body acc x w) as [[acc'|e] w1]; [apply IH|].
    reflexivity.
Qed.

(** *** The content filter *)

Lemma match_escape_ignorecase word s :
  match_regex (escape_ignorecase word) s
  = if prefix_ic word s then Some (List.length word) else None.
Proof.
  unfold escape_ignorecase, match_regex.
  enough (E : match_branch (List.map (fun p => (sre_ignorecase p, One)) word) s
              = if prefix_ic word s then Some (List.length word) else None).
  { rewrite E. now destruct (prefix_ic word s). }
  revert s. induction word as [|p word IH]; intros s; simpl.
  - now destruct s.
  - destruct s as [|c s]; simpl; [reflexivity|].
    destruct (sre_ignorecase p c); simpl; [|reflexivity].
    rewrite IH. now destruct (prefix_ic word s).
Qed.

Lemma sub_from_select r k s :
  sub_from r k s = select (kept_from r k s) s.
Proof.
  revert k. induction s as [|c s IH]; intros k; simpl; [reflexivity|].
  destruct k as [|k]; [|apply IH].
  destruct (match_regex r (c :: s)) as [[|n]|]; simpl; now rewrite IH.
Qed.

Lemma sub_from_Forall (P : N -> Prop) r k s :
  Forall P s -> Forall P (sub_from r k s).
Proof.
  intros F. revert k. induction F as [|c s Pc F IH]; intros k; simpl; [constructor|].
  destruct k as [|k]; [|apply IH].
  destruct (match_regex r (c :: s)) as [[|n]|]; auto.
Qed.

Lemma lstrip_Forall (P : N -> Prop) s : Forall P s -> Forall P (lstrip s).
Proof.
  induction 1 as [|c s Pc F IH]; simpl; [constructor|].
  destruct (py_isspace c); auto.
Qed.

Lemma strip_Forall (P : N -> Prop) s : Forall P s -> Forall P (strip s).
Proof.
  intros F. unfold strip, rstrip.
  apply Forall_rev, lstrip_Forall, Forall_rev, lstrip_Forall, F.
Qed.

(** One pass for a phrase of one character leaves no character that
    matches it. *)
Lemma sub_from_single p k s :
  Forall (fun c => sre_ignorecase p c = false) (sub_from (escape_ignorecase [p]) k s).
Proof.
  revert k. induction s as [|c s IH]; intros k; simpl; [constructor|].
  destruct k as [|k]; [|apply IH].
  change (match_branch _ (c :: s)) with (match_one (sre_ignorecase p) (fun _ => Some O) (c :: s)).
  simpl. destruct (sre_ignorecase p c) eqn:E; simpl; auto.
Qed.

Lemma passes_Forall (P : N -> Prop) words s :
  Forall P s ->
  Forall P (fold_left (fun content word => re_sub (escape_ignorecase word) content)
              words s).
Proof.
  revert s. induction words as [|word words IH]; intros s F; simpl; [exact F|].
  apply IH, sub_from_Forall, F.
Qed.

Lemma occurs_ic_single p s :
  Forall (fun c => sre_ignorecase p c = false) s -> occurs_ic [p] s = false.
Proof.
  induction 1 as [|c s E F IH]; simpl; [reflexivity|].
  now rewrite E, IH.
Qed.

Lemma kept_from_cons r k c s :
  kept_from r k (c :: s)
  = match k with
    | S k' => false :: kept_from r k' s
    | O => match match_regex r (c :: s) with
           | Some (S n) => false :: kept_from r n s
           | _ => true :: kept_from r O s
           end
    end.
Proof. reflexivity. Qed.

(** A match of [word] at position [i] of [s] loses a character in the
    pass for [word]. *)
Lemma kept_from_hits word k s i :
  word <> [] ->
  prefix_ic word (drop i s) = true ->
  exists j, (i <= j < i + List.length word)%nat
            /\ kept_from (escape_ignorecase word) k s !! j = Some false.
Proof.
  intros NE. revert k s. induction i as [|i IH]; intros k s P.
  - rewrite drop_0 in P. exists O. split.
    + destruct word; [congruence|simpl; lia].
    + destruct s as [|c s]; [destruct word; [congruence|discriminate]|].
      rewrite kept_from_cons. destruct k as [|k]; [|reflexivity].
      rewrite match_escape_ignorecase, P.
      destruct word; [congruence|reflexivity].
  - destruct s as [|c s]; [destruct word; [congruence|discriminate]|].
    simpl in P. rewrite kept_from_cons.
    destruct k as [|k].
    + destruct (match_regex (escape_ignorecase word) (c :: s)) as [[|n]|].
      * destruct (IH O s P) as (j & Hj & E). exists (S j). split; [lia|exact E].
      * destruct (IH n s P) as (j & Hj & E). exists (S j). split; [lia|exact E].
      * destruct (IH O s P) as (j & Hj & E). exists (S j). split; [lia|exact E].
    + destruct (IH k s P) as (j & Hj & E). exists (S j). split; [lia|exact E].
Qed.

Lemma passes_nil words :
  fold_left (fun content word => re_sub (escape_ignorecase word) content) words [] = [].
Proof. induction words; simpl; auto. Qed.

(** C4 (amended). Empty or absent input gives the empty string.  The
    output is the text after one pass per banned phrase, in the order of the
    list, and a trim; a pass scans the text once from the left and drops the
    matches of its phrase that it meets.  So every occurrence of a non-empty
    phrase in the text as the pass finds it loses a character, and for a
    phrase of one character the output holds no occurrence of it; an
    occurrence that only forms when a match between its parts is dropped
    stays. *)
Theorem filter_content_single_pass :
  filter_content cfg None = [] /\ filter_content cfg (Some []) = []
  /\ (forall T,
        filter_content cfg (Some T)
        = strip (fold_left
                   (fun content word =>
                      select (kept_from (escape_ignorecase word) O content) content)
                   (FILTER_WORDS cfg) T))
  /\ (forall word s i,
        word <> [] ->
        prefix_ic word (drop i s) = true ->
        exists j, (i <= j < i + List.length word)%nat
                  /\ kept_from (escape_ignorecase word) O s !! j = Some false)
  /\ (forall p T,
        In [p] (FILTER_WORDS cfg) ->
        occurs_ic [p] (filter_content cfg (Some T)) = false).
Proof.
  split; [reflexivity|]. split; [reflexivity|]. split; [|split].
  - intros T.
    assert (E : filter_content cfg (Some T)
                = strip (fold_left (fun content word =>
                           re_sub (escape_ignorecase word) content)
                         (FILTER_WORDS cfg) T)).
    { destruct T; [|reflexivity]. now rewrite passes_nil. }
    rewrite E. f_equal. apply fold_left_pointwise. intros content word.
    apply sub_from_select.
  - intros word s i NE P. now apply kept_from_hits.
  - intros p T I. destruct T as [|c T]; [reflexivity|].
    unfold filter_content. apply occurs_ic_single, strip_Forall.
    destruct (in_split _ _ I) as (l1 & l2 & ->).
    rewrite fold_left_app. simpl. apply passes_Forall, sub_from_single.
Qed.

(** *** The window filter *)

Lemma datetime_sub_same_tz a t :
  datetime_sub {| wall := a; tzinfo := tzinfo t |} t = Ok (a - wall t)%Z.
Proof. unfold datetime_sub; simpl. destruct (tzinfo t); f_equal; lia. Qed.

Lemma is_within_window_parsed ts t w :
  fromisoformat (replace_char (chr "Z") (u "+00:00") ts) = Some t ->
  is_within_window cfg env ts w =
    (match timedelta_hours (MESSAGE_WINDOW_HOURS cfg) with
     | Ok window => Ok (now_wall w (tzinfo t) - wall t <? window)%Z
     | Raise e => Raise e
     end, after [EvNow] w).
Proof.
  intros P. unfold is_within_window. rewrite P.
  unfold datetime_now, bind, ticks, emit, ret, lift; simpl.
  rewrite datetime_sub_same_tz.
  unfold now_wall, after; simpl.
  destruct (timedelta_hours (MESSAGE_WINDOW_HOURS cfg)); reflexivity.
Qed.

Lemma is_within_window_unparsed ts w :
  fromisoformat (replace_char (chr "Z") (u "+00:00") ts) = None ->
  is_within_window cfg env ts w =
    (Ok false, after [EvLog ERROR (CouldNotParseTimestamp ts)] w).
Proof. intros P. unfold is_within_window. now rewrite P. Qed.

(** A message found recent was parsed, and one clock read is all that
    happened. *)
Lemma is_within_window_true ts w :
  fst (is_within_window cfg env ts w) = Ok true ->
  is_within_window cfg env ts w = (Ok true, after [EvNow] w).
Proof.
  destruct (fromisoformat (replace_char (chr "Z") (u "+00:00") ts)) as [t|] eqn:P.
  - rewrite (is_within_window_parsed _ _ _ P); simpl.
    intros ->. reflexivity.
  - rewrite (is_within_window_unparsed _ _ P); simpl. discriminate.
Qed.

(** *** The forwarder *)

Lemma send_to_telegram_fails chat thread text urls w :
  (forall req, telegram_post env (S (List.length (trace w))) req = false) ->
  exists evs,
    send_to_telegram env chat thread text urls w = (Ok (false, []), after evs w)
    /\ events_of is_save evs = [].
Proof.
  intros F. unfold send_to_telegram, load_upload_history, post, log.
  unfold bind, emit, ticks, ret; simpl.
  set (l := match urls with Some us => build_media _ text 0 us | None => [] end).
  destruct l as [|i1 [|i2 l]]; simpl.
  - destruct text as [[|c text]|]; simpl.
    + exists [EvLoad]. split; reflexivity.
    + rewrite F. eexists [_; _; _]. split; reflexivity.
    + exists [EvLoad]. split; reflexivity.
  - rewrite F. eexists [_; _; _]. split; reflexivity.
  - rewrite F. eexists [_; _; _]. split; reflexivity.
Qed.

Lemma send_to_telegram_no_content chat thread w :
  send_to_telegram env chat thread (Some []) (Some []) w
  = (Ok (false, []), after [EvLoad] w).
Proof. reflexivity. Qed.

Lemma sent_items_Some urls w :
  sent_items (Some urls) w = (Ok (true, urls), w).
Proof. reflexivity. Qed.

(** With a list of urls the forwarder never raises, and on success it
    reports the list it was given. *)
Lemma send_to_telegram_result chat thread text urls w :
  exists evs,
    (send_to_telegram env chat thread text (Some urls) w = (Ok (true, urls), after evs w)
     \/ send_to_telegram env chat thread text (Some urls) w = (Ok (false, []), after evs w))
    /\ events_of is_save evs = [].
Proof.
  unfold send_to_telegram, load_upload_history, post, log.
  unfold bind, emit, ticks, ret; simpl.
  set (l := build_media _ text 0 urls).
  destruct l as [|i1 [|i2 l]]; simpl.
  - destruct text as [[|c text]|]; simpl.
    + exists [EvLoad]. split; [right|]; reflexivity.
    + destruct (telegram_post env _ _);
        eexists [_; _; _];
        (split; [first [left; reflexivity | right; reflexivity] | reflexivity]).
    + exists [EvLoad]. split; [right|]; reflexivity.
  - destruct (telegram_post env _ _);
      eexists [_; _; _];
        (split; [first [left; reflexivity | right; reflexivity] | reflexivity]).
  - destruct (telegram_post env _ _);
      eexists [_; _; _];
        (split; [first [left; reflexivity | right; reflexivity] | reflexivity]).
Qed.

(** The first url of the list, when it is not in the history, carries the
    caption; no url behind it does. *)
Lemma build_media_no_caption history text i urls :
  Forall (fun item => caption item = None) (build_media history text (S i) urls).
Proof.
  revert i. induction urls as [|url urls IH]; intros i; simpl; [constructor|].
  destruct (in_history url history); [apply IH|].
  constructor; [reflexivity|apply IH].
Qed.

Lemma build_media_first_fresh history text url urls :
  in_history url history = false ->
  build_media history text 0 (url :: urls)
  = {| media := url; caption := if truthy text then text else None |}
    :: build_media history text 1 urls.
Proof. intros E. simpl. now rewrite E. Qed.

(** In the list that [build_media] gives, only the head can carry a
    caption, and it does only when it is the first url of the input. *)
Lemma build_media_captions history text urls :
  match build_media history text 0 urls with
  | [] => True
  | item :: items =>
      Forall (fun item => caption item = None) items
      /\ (caption item = None
          \/ (caption item = text /\ truthy text = true
              /\ exists rest, urls = media item :: rest))
  end.
Proof.
  destruct urls as [|url urls]; simpl; [exact I|].
  destruct (in_history url history).
  - pose proof (build_media_no_caption history text 0 urls) as F.
    destruct (build_media history text 1 urls) as [|item items]; [exact I|].
    inversion F; subst. split; [assumption|now left].
  - split; [apply build_media_no_caption|]. simpl.
    destruct (truthy text) eqn:T; [right|now left].
    split; [reflexivity|]. split; [reflexivity|]. now exists urls.
Qed.

(** *** The loop body *)

Lemma process_message_recent chat thread history n message w :
  in_history (m_id message) history = false ->
  fst (is_within_window cfg env (m_timestamp message) w) = Ok true ->
  process_message cfg env chat thread (history, n) message w
  = bind (send_to_telegram env chat thread (Some (full_text cfg message))
            (Some (image_urls_of message)))
      (fun r =>
         bind (if fst r
               then bind (datetime_utcnow env) (fun t =>
                      bind (record_items env (snd r)
                              (<[m_id message := isoformat t]> history))
                        (fun history => ret (history, S n)))
               else ret (history, n))
           (fun st' =>
              bind (save_upload_history (fst st')) (fun _ =>
                bind (emit (EvSleep REQUEST_DELAY)) (fun _ => ret st'))))
      (after [EvNow] w).
Proof.
  intros Hin Hrec. unfold process_message. rewrite Hin.
  rewrite (bind_Ok _ _ _ _ _ (is_within_window_true _ _ Hrec)). simpl.
  unfold bind. destruct (send_to_telegram _ _ _ _ _ _) as [[[ok sent]|e] w1]; reflexivity.
Qed.

Lemma in_history_insert (key k v : pystr) (h : History) :
  in_history key (<[k := v]> h) = true <-> key = k \/ in_history key h = true.
Proof.
  unfold in_history. rewrite !bool_decide_eq_true.
  destruct (decide (k = key)) as [->|NE].
  - rewrite lookup_insert_eq. split; eauto.
  - rewrite lookup_insert_ne by assumption. split; [auto|].
    intros [->|I]; [congruence|exact I].
Qed.

Lemma after_after e2 e1 w : after e2 (after e1 w) = after (e2 ++ e1) w.
Proof. unfold after; simpl. now rewrite app_assoc. Qed.

(** Recording reads the clock once for each item and adds the items to
    the keys. *)
Lemma record_items_spec (items : list pystr) (history : History) w :
  exists history' nows,
    record_items env items history w = (Ok history', after nows w)
    /\ Forall (eq EvNow) nows
    /\ forall key, in_history key history' = true
                   <-> in_history key history = true \/ In key items.
Proof.
  revert history w. induction items as [|item items IH]; intros history w.
  - exists history, []. split; [destruct w; reflexivity|]. split; [constructor|].
    intros key. simpl. tauto.
  - destruct (IH (<[item := isoformat (utc_clock env (List.length (trace w)))]> history)
                (after [EvNow] w)) as (h' & nows & E & F & K).
    exists h', (nows ++ [EvNow]). split; [|split].
    + unfold record_items in *. cbn [for_each].
      erewrite bind_Ok by reflexivity.
      rewrite after_after in E. exact E.
    + apply Forall_app. split; [exact F|repeat constructor].
    + intros key. rewrite K, in_history_insert. simpl. intuition congruence.
Qed.

(** The end of the step: write the history, wait. *)
Lemma finish_step (st' : History * nat) w :
  bind (save_upload_history (fst st'))
    (fun _ => bind (emit (EvSleep REQUEST_DELAY)) (fun _ => ret st')) w
  = (Ok st', {| file := Some (fst st');
                trace := EvSleep REQUEST_DELAY :: EvSave (fst st') :: trace w |}).
Proof. reflexivity. Qed.

(** The success branch of the step. *)
Lemma record_sent (message : Message) (sent : list pystr) (history : History)
    (n : nat) (w : World) :
  exists history' nows,
    bind (datetime_utcnow env) (fun t =>
      bind (record_items env sent (<[m_id message := isoformat t]> history))
        (fun history => ret (history, S n))) w
    = (Ok (history', S n), after nows w)
    /\ Forall (eq EvNow) nows
    /\ forall key, in_history key history' = true
                   <-> in_history key history = true \/ key = m_id message
                       \/ In key sent.
Proof.
  destruct (record_items_spec sent
              (<[m_id message := isoformat (utc_clock env (List.length (trace w)))]> history)
              (after [EvNow] w)) as (h' & nows & E & F & K).
  exists h', (nows ++ [EvNow]). split; [|split].
  - erewrite bind_Ok by reflexivity.
    change {| file := file w; trace := EvNow :: trace w |} with (after [EvNow] w).
    rewrite (bind_Ok _ _ _ _ _ E). now rewrite after_after.
  - apply Forall_app. split; [exact F|repeat constructor].
  - intros key. rewrite K, in_history_insert. tauto.
Qed.

Lemma send_to_telegram_outcome chat thread text urls w :
  exists r evs,
    send_to_telegram env chat thread (Some text) (Some urls) w = (Ok r, after evs w)
    /\ send_outcome text urls w r evs.
Proof.
  unfold send_to_telegram, load_upload_history, post, log.
  unfold bind, emit, ticks, ret; simpl.
  change (default ∅ (file w)) with (stored w).
  destruct (build_media (stored w) (Some text) 0 urls) as [|i1 [|i2 l]] eqn:B; simpl.
  - destruct text as [|c text]; simpl.
    + exists (false, []), [EvLoad]. split; [reflexivity|now constructor].
    + destruct (telegram_post env _ _) eqn:P; simpl;
        eexists _, [_; _; _]; (split; [reflexivity|]);
        constructor; solve [exact P | left; discriminate].
  - destruct (telegram_post env _ _) eqn:P; simpl;
      eexists _, [_; _; _]; (split; [reflexivity|]);
      constructor; solve [exact P | right; rewrite B; discriminate].
  - destruct (telegram_post env _ _) eqn:P; simpl;
      eexists _, [_; _; _]; (split; [reflexivity|]);
      constructor; solve [exact P | right; rewrite B; discriminate].
Qed.

Lemma process_message_outcome chat thread history n message w :
  step_outcome history n message w
    (fst (process_message cfg env chat thread (history, n) message w))
    (snd (process_message cfg env chat thread (history, n) message w)).
Proof.
  destruct (in_history (m_id message) history) eqn:Hin.
  { unfold process_message. rewrite Hin. now constructor. }
  destruct (fromisoformat (replace_char (chr "Z") (u "+00:00") (m_timestamp message)))
    as [t|] eqn:P.
  2:{ unfold process_message. rewrite Hin.
      rewrite (bind_Ok _ _ _ _ _ (is_within_window_unparsed _ _ P)). simpl.
      now constructor. }
  pose proof (is_within_window_parsed _ _ w P) as W.
  destruct (timedelta_hours (MESSAGE_WINDOW_HOURS cfg)) as [window|e] eqn:T.
  2:{ unfold process_message. rewrite Hin.
      rewrite (bind_Raise _ _ _ _ _ W). simpl. now apply StepOverflow with t. }
  destruct (now_wall w (tzinfo t) - wall t <? window)%Z eqn:R.
  2:{ unfold process_message. rewrite Hin.
      rewrite (bind_Ok _ _ _ _ _ W). simpl. now apply StepOld with t window. }
  rewrite (process_message_recent chat thread _ n _ _ Hin) by now rewrite W.
  destruct (send_to_telegram_outcome chat thread (full_text cfg message)
              (image_urls_of message) (after [EvNow] w)) as (r & evs & E & O).
  rewrite (bind_Ok _ _ _ _ _ E).
  destruct O as [Ht B|req C F|req msg C F]; cbn [fst snd].
  - rewrite (bind_Ok _ _ _ _ _ (eq_refl : ret (history, n) _ = _)), finish_step.
    apply (StepNotSent _ _ _ _ t window [EvLoad]); auto. now constructor.
  - rewrite (bind_Ok _ _ _ _ _ (eq_refl : ret (history, n) _ = _)), finish_step.
    apply (StepNotSent _ _ _ _ t window [_; _; _]); auto. now constructor.
  - destruct (record_sent message (image_urls_of message) history n
                (after [EvLog INFO msg; EvPost req true; EvLoad] (after [EvNow] w)))
      as (h' & nows & E' & FN & K).
    rewrite (bind_Ok _ _ _ _ _ E'), finish_step. cbn [fst snd after trace].
    apply (StepSent _ _ _ _ t window [_; _; _] nows h'); auto. now constructor.
Qed.

(** C9. A message whose id is a key of the history at the start of its
    step is skipped at once: the step changes neither the history nor the
    counter, and nothing happens outside, so no send of any kind is issued
    for it.  ([history] is the history that the loop holds; by [loop_sync]
    it is the content of the store at that moment.) *)
Theorem message_in_history_is_skipped chat thread history n message w :
  in_history (m_id message) history = true ->
  process_message cfg env chat thread (history, n) message w = (Ok (history, n), w)
  /\ events_of is_post (trace (snd (process_message cfg env chat thread
                                      (history, n) message w)))
     = events_of is_post (trace w).
Proof.
  intros Hin. unfold process_message. rewrite Hin. split; reflexivity.
Qed.

(** C10. A message with an empty text body and no image attachment, not
    yet in the history and inside the window: the forwarder is invoked,
    sends nothing and answers [(False, [])]; the step leaves the history
    as it was and writes it to the store, so the id is still absent from the
    store afterwards and the next run examines the message again. *)
Theorem empty_message_never_recorded chat thread history n message w :
  full_text cfg message = [] ->
  image_urls_of message = [] ->
  in_history (m_id message) history = false ->
  fst (is_within_window cfg env (m_timestamp message) w) = Ok true ->
  let w' := {| file := Some history;
               trace := EvSleep REQUEST_DELAY :: EvSave history :: EvLoad
                        :: EvNow :: trace w |} in
  send_to_telegram env chat thread (Some (full_text cfg message))
    (Some (image_urls_of message)) (after [EvNow] w)
  = (Ok (false, []), after [EvLoad; EvNow] w)
  /\ process_message cfg env chat thread (history, n) message w = (Ok (history, n), w')
  /\ events_of is_post (trace w') = events_of is_post (trace w)
  /\ in_history (m_id message) (stored w') = false.
Proof.
  intros Ht Hu Hin Hrec w'.
  rewrite (process_message_recent _ _ _ _ _ _ Hin Hrec), Ht, Hu.
  repeat split; assumption.
Qed.

(** C6. When the transport call of the forwarder fails, the forwarder
    answers [(False, [])]; the caller then leaves the history and the
    counter as they were, so no key is added for the message id or for an
    image url, and it still writes the history to the store. *)
Theorem failed_send_records_nothing chat thread :
  (forall text urls w,
     (forall req, telegram_post env (S (List.length (trace w))) req = false) ->
     fst (send_to_telegram env chat thread text urls w) = Ok (false, []))
  /\ (forall history n message w,
        in_history (m_id message) history = false ->
        fst (is_within_window cfg env (m_timestamp message) w) = Ok true ->
        (forall req, telegram_post env (2 + List.length (trace w)) req = false) ->
        exists evs,
          process_message cfg env chat thread (history, n) message w
          = (Ok (history, n),
             {| file := Some history;
                trace := EvSleep REQUEST_DELAY :: EvSave history :: evs ++ trace w |})
          /\ events_of is_save evs = []).
Proof.
  split.
  - intros text urls w F.
    destruct (send_to_telegram_fails chat thread text urls w F) as (evs & E & _).
    now rewrite E.
  - intros history n message w Hin Hrec F.
    rewrite (process_message_recent _ _ _ _ _ _ Hin Hrec).
    destruct (send_to_telegram_fails chat thread (Some (full_text cfg message))
                (Some (image_urls_of message)) (after [EvNow] w) F) as (evs & E & S).
    rewrite (bind_Ok _ _ _ _ _ E). simpl.
    exists (evs ++ [EvNow]). split.
    + unfold bind, save_upload_history, emit, ret, after; simpl.
      now rewrite <- app_assoc.
    + unfold events_of in *. rewrite List.filter_app, S. reflexivity.
Qed.

(** C5. With a window of one hour, a timestamp that parses to [t] is
    recent exactly when the clock, read in the time zone of [t], is less
    than one hour after [t]: not at 61 minutes, at 59 minutes, and not at 60
    minutes.  A timestamp that does not parse is not recent, and nothing is
    raised. *)
Theorem is_within_window_one_hour ts w :
  MESSAGE_WINDOW_HOURS cfg = 1%Z ->
  (forall t,
     fromisoformat (replace_char (chr "Z") (u "+00:00") ts) = Some t ->
     fst (is_within_window cfg env ts w)
     = Ok (now_wall w (tzinfo t) - wall t <? 3600000000)%Z
     /\ (now_wall w (tzinfo t) = wall t + 61 * 60000000 ->
         fst (is_within_window cfg env ts w) = Ok false)%Z
     /\ (now_wall w (tzinfo t) = wall t + 59 * 60000000 ->
         fst (is_within_window cfg env ts w) = Ok true)%Z
     /\ (now_wall w (tzinfo t) = wall t + 60 * 60000000 ->
         fst (is_within_window cfg env ts w) = Ok false)%Z)
  /\ (fromisoformat (replace_char (chr "Z") (u "+00:00") ts) = None ->
      is_within_window cfg env ts w
      = (Ok false, after [EvLog ERROR (CouldNotParseTimestamp ts)] w)).
Proof.
  intros W. split.
  - intros t P. rewrite (is_within_window_parsed _ _ _ P), W. simpl.
    repeat split; intros ->; f_equal; lia.
  - apply is_within_window_unparsed.
Qed.

(** *** The history in the loop *)

Lemma for_each_cons {A S} (body : S -> A -> M S) x l acc w :
  for_each body (x :: l) acc w
  = match body acc x w with
    | (Ok acc', w') => for_each body l acc' w'
    | (Raise e, w') => (Raise e, w')
    end.
Proof. reflexivity. Qed.

Lemma events_of_nows p nows :
  p EvNow = false -> Forall (eq EvNow) nows -> events_of p nows = [].
Proof.
  intros E. induction 1 as [|e l <- F IH]; simpl; [reflexivity|]. now rewrite E.
Qed.

Lemma send_outcome_loads text urls w r evs :
  send_outcome text urls w r evs ->
  events_of is_load evs = [EvLoad] /\ events_of is_save evs = [].
Proof. destruct 1; split; reflexivity. Qed.

(** A step loads the history as often as it saves it: once each when
    the forwarder is invoked, never otherwise. *)
Lemma step_loads_and_saves chat thread history n message w :
  exists evs,
    trace (snd (process_message cfg env chat thread (history, n) message w))
    = evs ++ trace w
    /\ List.length (events_of is_load evs) = List.length (events_of is_save evs).
Proof.
  destruct (process_message_outcome chat thread history n message w)
    as [ | | | |? ? evs ? ? ? ? O|? ? evs nows ? ? ? ? ? O F K].
  - exists []. split; reflexivity.
  - eexists [_]. split; reflexivity.
  - eexists [_]. split; reflexivity.
  - eexists [_]. split; reflexivity.
  - destruct (send_outcome_loads _ _ _ _ _ O) as [L S].
    exists (EvSleep REQUEST_DELAY :: EvSave history :: evs ++ [EvNow]). split.
    + simpl. now rewrite <- app_assoc.
    + unfold events_of in *. simpl. rewrite !List.filter_app, L, S. reflexivity.
  - destruct (send_outcome_loads _ _ _ _ _ O) as [L S].
    exists (EvSleep REQUEST_DELAY :: EvSave history' :: nows ++ evs ++ [EvNow]). split.
    + simpl. now rewrite <- !app_assoc.
    + pose proof (events_of_nows is_load nows eq_refl F) as NL.
      pose proof (events_of_nows is_save nows eq_refl F) as NS.
      unfold events_of in *. simpl. rewrite !List.filter_app, L, S, NL, NS. reflexivity.
Qed.

Lemma loop_loads_and_saves chat thread messages :
  forall st w,
  exists evs,
    trace (snd (for_each (process_message cfg env chat thread) messages st w))
    = evs ++ trace w
    /\ List.length (events_of is_load evs) = List.length (events_of is_save evs).
Proof.
  induction messages as [|message messages IH]; intros [history n] w.
  - exists []. split; reflexivity.
  - rewrite for_each_cons.
    destruct (step_loads_and_saves chat thread history n message w) as (e1 & T1 & C1).
    destruct (process_message cfg env chat thread (history, n) message w)
      as [[st1|e] w1]; simpl in T1.
    + destruct (IH st1 w1) as (e2 & T2 & C2). exists (e2 ++ e1). split.
      * now rewrite T2, T1, app_assoc.
      * unfold events_of in *. rewrite !List.filter_app, !length_app. lia.
    + exists e1. split; assumption.
Qed.

(** After a step the history that the loop holds is the content of the
    store, when it was before the step. *)
Lemma step_sync chat thread history n message w history' n' :
  stored w = history ->
  fst (process_message cfg env chat thread (history, n) message w) = Ok (history', n') ->
  stored (snd (process_message cfg env chat thread (history, n) message w)) = history'.
Proof.
  intros S.
  destruct (process_message_outcome chat thread history n message w);
    intros E; inversion E; subst; reflexivity.
Qed.

Lemma loop_sync chat thread messages :
  forall history n w history' n',
    stored w = history ->
    fst (for_each (process_message cfg env chat thread) messages (history, n) w)
    = Ok (history', n') ->
    stored (snd (for_each (process_message cfg env chat thread) messages (history, n) w))
    = history'.
Proof.
  induction messages as [|message messages IH]; intros history n w history' n' S.
  - simpl. intros E. inversion E. now subst.
  - rewrite for_each_cons.
    pose proof (step_sync chat thread history n message w) as Y.
    destruct (process_message cfg env chat thread (history, n) message w)
      as [[[h1 n1]|e] w1]; simpl in Y.
    + apply IH. now apply (Y h1 n1).
    + discriminate.
Qed.

Lemma In_insert_sorted m x l : In m (insert_sorted x l) <-> m = x \/ In m l.
Proof.
  induction l as [|y l IH]; simpl; [intuition congruence|].
  destruct (str_ltb (m_timestamp y) (m_timestamp x)); simpl; [|intuition congruence].
  rewrite IH. intuition congruence.
Qed.

Lemma In_sorted_by_timestamp m l : In m (sorted_by_timestamp l) <-> In m l.
Proof.
  induction l as [|x l IH]; simpl; [tauto|].
  rewrite In_insert_sorted, IH. intuition congruence.
Qed.

Lemma get_discord_messages_fetched channel w response :
  discord_get env (List.length (trace w)) channel = Some response ->
  get_discord_messages env channel w
  = (Ok (Some (sorted_by_timestamp response)), after [EvFetch channel] w).
Proof.
  intros F. unfold get_discord_messages, bind, ticks, emit. simpl. now rewrite F.
Qed.

Lemma process_channel_fetch_failure channel chat thread w :
  discord_get env (S (List.length (trace w))) channel = None ->
  process_channel cfg env channel chat thread w
  = (Ok tt, after [EvLog WARNING (NoMessagesFound channel);
                   EvLog ERROR ErrorFetchingFromDiscord;
                   EvFetch channel;
                   EvLog INFO (ProcessingChannel channel)] w).
Proof.
  intros F. unfold process_channel, get_discord_messages, log.
  unfold bind, emit, ticks; simpl. rewrite F. reflexivity.
Qed.

(** A channel whose fetch gave messages: one load, then the loop. *)
Lemma process_channel_fetched channel chat thread w response x l :
  discord_get env (S (List.length (trace w))) channel = Some response ->
  sorted_by_timestamp response = x :: l ->
  process_channel cfg env channel chat thread w
  = match for_each (process_message cfg env chat thread) (x :: l) (stored w, O)
            (after [EvLoad; EvFetch channel; EvLog INFO (ProcessingChannel channel)] w)
    with
    | (Ok st, w') => (Ok tt, after [EvLog INFO (ProcessedNew (snd st) channel)] w')
    | (Raise e, w') => (Raise e, w')
    end.
Proof.
  intros F So. unfold process_channel.
  rewrite (bind_Ok _ _ _ _ _ (eq_refl : log _ _ w = (Ok tt, after [_] w))).
  rewrite (bind_Ok _ _ _ _ _
             (get_discord_messages_fetched channel
                (after [EvLog INFO (ProcessingChannel channel)] w) response F)), So.
  rewrite (bind_Ok _ _ _ _ _
             (eq_refl : load_upload_history
                          (after [EvFetch channel]
                             (after [EvLog INFO (ProcessingChannel channel)] w))
                        = (Ok (stored w),
                           after [EvLoad]
                             (after [EvFetch channel]
                                (after [EvLog INFO (ProcessingChannel channel)] w))))).
  rewrite !after_after. unfold bind.
  destruct (for_each _ _ _ _) as [[st|e] w']; reflexivity.
Qed.

Lemma process_channel_no_messages channel chat thread w response :
  discord_get env (S (List.length (trace w))) channel = Some response ->
  sorted_by_timestamp response = [] ->
  process_channel cfg env channel chat thread w
  = (Ok tt, after [EvLog WARNING (NoMessagesFound channel); EvFetch channel;
                   EvLog INFO (ProcessingChannel channel)] w).
Proof.
  intros F So. unfold process_channel.
  rewrite (bind_Ok _ _ _ _ _ (eq_refl : log _ _ w = (Ok tt, after [_] w))).
  rewrite (bind_Ok _ _ _ _ _
             (get_discord_messages_fetched channel
                (after [EvLog INFO (ProcessingChannel channel)] w) response F)), So.
  reflexivity.
Qed.

(** C2 (amended). The history is loaded from the store once for a
    channel, before the loop over its messages; in the loop the only loads
    are those of the forwarder, one for each invocation, each followed by the
    one save of that step, so a channel run makes one load more than it
    makes saves, however many messages it has.  The skip check of each
    message reads the history that the loop holds, and at the start of each
    step that history is the content of the store. *)
Theorem history_loaded_per_channel chat thread :
  (forall channel w response,
     discord_get env (S (List.length (trace w))) channel = Some response ->
     response <> [] ->
     exists evs,
       trace (snd (process_channel cfg env channel chat thread w)) = evs ++ trace w
       /\ List.length (events_of is_load evs) = S (List.length (events_of is_save evs)))
  /\ (forall messages w history n w',
        for_each (process_message cfg env chat thread) messages (stored w, O) w
        = (Ok (history, n), w') ->
        stored w' = history).
Proof.
  split.
  - intros channel w response F NE.
    destruct (sorted_by_timestamp response) as [|x l] eqn:So.
    { destruct response as [|m response]; [congruence|].
      assert (I : In m (sorted_by_timestamp (m :: response)))
        by (apply In_sorted_by_timestamp; left; reflexivity).
      rewrite So in I. destruct I. }
    rewrite (process_channel_fetched _ chat thread _ _ _ _ F So).
    destruct (loop_loads_and_saves chat thread (x :: l) (stored w, O)
                (after [EvLoad; EvFetch channel; EvLog INFO (ProcessingChannel channel)] w))
      as (evs & T & C).
    destruct (for_each _ _ _ _) as [[st|e] w']; simpl in T.
    + exists (EvLog INFO (ProcessedNew (snd st) channel) :: evs
              ++ [EvLoad; EvFetch channel; EvLog INFO (ProcessingChannel channel)]).
      split.
      * simpl. rewrite T. simpl. now rewrite <- app_assoc.
      * unfold events_of in *. simpl. rewrite !List.filter_app, !length_app. simpl. lia.
    + exists (evs ++ [EvLoad; EvFetch channel; EvLog INFO (ProcessingChannel channel)]).
      split.
      * simpl. rewrite T. simpl. now rewrite <- app_assoc.
      * unfold events_of in *. rewrite !List.filter_app, !length_app. simpl. lia.
  - intros messages w history n w' E.
    pose proof (loop_sync chat thread messages (stored w) O w history n eq_refl) as Y.
    rewrite E in Y. now apply Y.
Qed.

(** *** Two runs *)

(** The step of a message as a relation between the worlds before and
    after. *)
Lemma process_message_step chat thread history n message w r w' :
  process_message cfg env chat thread (history, n) message w = (r, w') ->
  step_outcome history n message w r w'.
Proof.
  intros E. pose proof (process_message_outcome chat thread history n message w) as O.
  now rewrite E in O.
Qed.

Lemma later_refl w : later w w.
Proof. split; [now exists []|]. now intros key. Qed.

Lemma later_trans w1 w2 w3 : later w1 w2 -> later w2 w3 -> later w1 w3.
Proof.
  intros [[e1 T1] G1] [[e2 T2] G2]. split.
  - exists (e2 ++ e1). now rewrite T2, T1, app_assoc.
  - intros key I. auto.
Qed.

Lemma later_after evs w : later w (after evs w).
Proof. split; [now exists evs|]. now intros key. Qed.

Lemma later_length w w' : later w w' -> (List.length (trace w) <= List.length (trace w'))%nat.
Proof. intros [[evs ->] _]. rewrite length_app. lia. Qed.

Lemma quiet_refl w : quiet w w.
Proof. split; [now exists []|reflexivity]. Qed.

Lemma quiet_trans w1 w2 w3 : quiet w1 w2 -> quiet w2 w3 -> quiet w1 w3.
Proof.
  intros [(e1 & T1 & P1) S1] [(e2 & T2 & P2) S2]. split.
  - exists (e2 ++ e1). split; [now rewrite T2, T1, app_assoc|].
    unfold events_of in *. now rewrite List.filter_app, P1, P2.
  - congruence.
Qed.

Lemma quiet_after evs w : events_of is_post evs = [] -> quiet w (after evs w).
Proof. intros P. split; [now exists evs|reflexivity]. Qed.

Lemma quiet_later w w' : quiet w w' -> later w w'.
Proof.
  intros [(evs & T & _) S]. split; [now exists evs|]. rewrite S. now intros key.
Qed.

(** When no failed post was added between [w] and [w3], none was added
    before or after a world between them. *)
Lemma no_failure_between w w2 w3 :
  later w w2 -> later w2 w3 ->
  events_of is_failed_post (trace w3) = events_of is_failed_post (trace w) ->
  events_of is_failed_post (trace w2) = events_of is_failed_post (trace w)
  /\ events_of is_failed_post (trace w3) = events_of is_failed_post (trace w2).
Proof.
  intros [[e1 T1] _] [[e2 T2] _]. rewrite T2, T1. unfold events_of.
  rewrite !List.filter_app. intros E.
  apply (f_equal (@List.length Event)) in E. rewrite !length_app in E.
  destruct (List.filter is_failed_post e1); [|simpl in E; lia].
  destruct (List.filter is_failed_post e2); [|simpl in E; lia].
  split; reflexivity.
Qed.

Lemma build_media_nil history text i urls :
  build_media history text i urls = []
  <-> Forall (fun url => in_history url history = true) urls.
Proof.
  revert i. induction urls as [|url urls IH]; intros i; simpl.
  - split; constructor.
  - destruct (in_history url history) eqn:I.
    + rewrite IH. split; [now constructor|now inversion 1].
    + split; [discriminate|]. inversion 1. congruence.
Qed.

Lemma settled_later message w w' : settled message w -> later w w' -> settled message w'.
Proof.
  intros [I|[P|[O|[(t & window & P & T & N)|[F A]]]]] L.
  - left. now apply (proj2 L).
  - right. now left.
  - right. right. now left.
  - right. right. right. left. exists t, window. repeat split; auto.
    intros k Hk. apply N. pose proof (later_length _ _ L). lia.
  - right. right. right. right. split; [exact F|].
    eapply Forall_impl; [exact A|]. intros url. apply (proj2 L).
Qed.

(** A settled message that is not in the history and reads as recent has
    nothing to send. *)
Lemma settled_recent message w t window :
  settled message w ->
  in_history (m_id message) (stored w) = false ->
  fromisoformat (replace_char (chr "Z") (u "+00:00") (m_timestamp message)) = Some t ->
  timedelta_hours (MESSAGE_WINDOW_HOURS cfg) = Ok window ->
  (now_wall w (tzinfo t) - wall t <? window)%Z = true ->
  full_text cfg message = []
  /\ build_media (stored w) (Some (full_text cfg message)) 0 (image_urls_of message) = [].
Proof.
  intros [I|[P|[[e O]|[(t' & window' & P & T & N)|[F A]]]]] Hin Hp Ht Hr;
    try congruence.
  - rewrite Hp in P. rewrite Ht in T. inversion P; inversion T; subst.
    specialize (N (List.length (trace w)) (le_n _)). unfold now_wall in Hr. congruence.
  - split; [exact F|]. now apply build_media_nil.
Qed.

(** The step of a settled message posts nothing and leaves the history
    as it is. *)
Lemma settled_step chat thread history n message w r w' :
  settled message w -> stored w = history ->
  process_message cfg env chat thread (history, n) message w = (r, w') ->
  quiet w w' /\ (forall st, r = Ok st -> st = (history, n)).
Proof.
  intros Se St E. apply process_message_step in E.
  destruct E as [ | | | |t window evs Hin P T R O|t window evs nows history' Hin P T R O F K].
  - split; [apply quiet_refl|]. now intros st [= <-].
  - split; [now apply quiet_after|]. now intros st [= <-].
  - split; [now apply quiet_after|]. discriminate.
  - split; [now apply quiet_after|]. now intros st [= <-].
  - rewrite <- St in Hin.
    destruct (settled_recent _ _ _ _ Se Hin P T R) as [Ft B].
    inversion O as [X1 X2|req C X1| ]; subst.
    + split; [|now intros st [= <-]]. split.
      * exists [EvSleep REQUEST_DELAY; EvSave (stored w); EvLoad; EvNow].
        split; reflexivity.
      * reflexivity.
    + exfalso. destruct C as [C|C]; [congruence|exact (C B)].
  - rewrite <- St in Hin.
    destruct (settled_recent _ _ _ _ Se Hin P T R) as [Ft B].
    exfalso. inversion O as [ | |req msg C X1]; subst.
    destruct C as [C|C]; [congruence|exact (C B)].
Qed.

Lemma loop_quiet chat thread messages :
  forall history n w r w',
    (forall m, In m messages -> settled m w) -> stored w = history ->
    for_each (process_message cfg env chat thread) messages (history, n) w = (r, w') ->
    quiet w w'.
Proof.
  induction messages as [|message messages IH]; intros history n w r w' Se St E.
  - inversion E. apply quiet_refl.
  - rewrite for_each_cons in E.
    destruct (process_message cfg env chat thread (history, n) message w)
      as [r1 w1] eqn:E1.
    destruct (settled_step _ _ _ _ _ _ _ _ (Se message (or_introl eq_refl)) St E1)
      as [Q Same].
    destruct r1 as [st1|e].
    + rewrite (Same st1 eq_refl) in E.
      apply (quiet_trans _ _ _ Q). apply (IH history n w1 r w'); auto.
      * intros m I. apply (settled_later m w); [|now apply quiet_later].
        apply Se. now right.
      * rewrite (proj2 Q). exact St.
    + inversion E. now subst.
Qed.

Lemma channel_settled_later channel w w' :
  channel_settled channel w -> later w w' -> channel_settled channel w'.
Proof. intros Se L response m F I. apply (settled_later m w); eauto. Qed.

Lemma channel_quiet channel chat thread w r w' :
  fetch_is_fixed -> channel_settled channel w ->
  process_channel cfg env channel chat thread w = (r, w') ->
  quiet w w'.
Proof.
  intros Fx Se E.
  destruct (discord_get env (S (List.length (trace w))) channel) as [response|] eqn:F.
  - destruct (sorted_by_timestamp response) as [|x l] eqn:So.
    + rewrite (process_channel_no_messages _ chat thread _ _ F So) in E.
      inversion E. now apply quiet_after.
    + rewrite (process_channel_fetched _ chat thread _ _ _ _ F So) in E.
      destruct (for_each _ _ _ _) as [r2 w2] eqn:E2.
      assert (Q : quiet w w2).
      { apply (quiet_trans _ (after [EvLoad; EvFetch channel;
                                     EvLog INFO (ProcessingChannel channel)] w));
          [apply quiet_after; reflexivity|].
        apply (loop_quiet chat thread (x :: l) (stored w) O
                 (after [EvLoad; EvFetch channel;
                         EvLog INFO (ProcessingChannel channel)] w) r2 w2);
          [|reflexivity|exact E2].
        intros m I. apply (settled_later m w); [|apply later_after].
        apply (Se response); [now rewrite <- F|].
        apply In_sorted_by_timestamp. now rewrite So. }
      destruct r2; inversion E; subst; [|exact Q].
      eapply quiet_trans; [exact Q|now apply quiet_after].
  - rewrite (process_channel_fetch_failure _ chat thread _ F) in E.
    inversion E. now apply quiet_after.
Qed.

Lemma run_mappings_cons channel chat thread rest w :
  run_mappings cfg env ((channel, (chat, thread)) :: rest) w
  = match process_channel cfg env channel chat thread w with
    | (Ok _, w') => run_mappings cfg env rest w'
    | (Raise e, w') => (Raise e, w')
    end.
Proof.
  unfold run_mappings. rewrite for_each_cons.
  destruct (process_channel cfg env channel chat thread w) as [[[]|e] w']; reflexivity.
Qed.

Lemma mappings_quiet mappings :
  forall w r w',
    fetch_is_fixed -> mappings_settled mappings w ->
    run_mappings cfg env mappings w = (r, w') ->
    quiet w w'.
Proof.
  induction mappings as [|[channel [chat thread]] mappings IH]; intros w r w' Fx Se E.
  - inversion E. apply quiet_refl.
  - rewrite run_mappings_cons in E.
    destruct (process_channel cfg env channel chat thread w) as [r1 w1] eqn:E1.
    pose proof (channel_quiet _ _ _ _ _ _ Fx (Se _ _ _ (or_introl eq_refl)) E1) as Q.
    destruct r1 as [[]|e]; [|inversion E; now subst].
    apply (quiet_trans _ _ _ Q). apply (IH w1 r w' Fx); [|exact E].
    intros ch c t I. apply (channel_settled_later ch w); [|now apply quiet_later].
    apply (Se ch c t). now right.
Qed.

(** Where the window can be built, a step does not raise. *)
Lemma step_no_raise chat thread history n message w r w' window :
  timedelta_hours (MESSAGE_WINDOW_HOURS cfg) = Ok window ->
  process_message cfg env chat thread (history, n) message w = (r, w') ->
  exists st, r = Ok st.
Proof.
  intros T E. apply process_message_step in E. destruct E; eauto. congruence.
Qed.

Lemma step_later chat thread history n message w r w' :
  stored w = history ->
  process_message cfg env chat thread (history, n) message w = (r, w') ->
  later w w' /\ (forall st, r = Ok st -> stored w' = fst st).
Proof.
  intros St E. apply process_message_step in E.
  destruct E as [ | | | |t window evs Hin P T R O|t window evs nows history' Hin P T R O F K].
  - split; [apply later_refl|]. now intros st [= <-].
  - split; [apply later_after|]. now intros st [= <-].
  - split; [apply later_after|]. discriminate.
  - split; [apply later_after|]. now intros st [= <-].
  - split; [|now intros st [= <-]]. split.
    + exists (EvSleep REQUEST_DELAY :: EvSave history :: evs ++ [EvNow]).
      simpl. now rewrite <- app_assoc.
    + rewrite St. now intros key.
  - split; [|now intros st [= <-]]. split.
    + exists (EvSleep REQUEST_DELAY :: EvSave history' :: nows ++ evs ++ [EvNow]).
      simpl. now rewrite <- !app_assoc.
    + rewrite St. intros key I. apply K. now left.
Qed.

(** A step that adds no failed post leaves its message settled. *)
Lemma step_settles chat thread history n message w r w' :
  clock_is_monotone -> stored w = history ->
  process_message cfg env chat thread (history, n) message w = (r, w') ->
  events_of is_failed_post (trace w') = events_of is_failed_post (trace w) ->
  settled message w'.
Proof.
  intros Mono St E NF. apply process_message_step in E.
  destruct E as [Hin|Hin P|t e Hin P T|t window Hin P T R
                 |t window evs Hin P T R O|t window evs nows history' Hin P T R O F K].
  - left. now rewrite St.
  - right. now left.
  - right. right. left. now exists e.
  - right. right. right. left. exists t, window. repeat split; auto.
    intros k Hk. simpl in Hk.
    assert (M : (utc_clock env (List.length (trace w)) <= utc_clock env k)%Z)
      by (apply Mono; lia).
    unfold now_wall in R. apply Z.ltb_ge in R. apply Z.ltb_ge. lia.
  - inversion O as [X1 X2|req C X1| ]; subst.
    + right. right. right. right. split; [exact X1|].
      apply build_media_nil in X2. exact X2.
    + exfalso. simpl in NF. apply (f_equal (@List.length Event)) in NF.
      simpl in NF. lia.
  - left. apply K. right. now left.
Qed.

Lemma loop_settles chat thread window messages :
  timedelta_hours (MESSAGE_WINDOW_HOURS cfg) = Ok window ->
  clock_is_monotone ->
  forall history n w r w',
    stored w = history ->
    for_each (process_message cfg env chat thread) messages (history, n) w = (r, w') ->
    later w w'
    /\ (exists st, r = Ok st)
    /\ (events_of is_failed_post (trace w') = events_of is_failed_post (trace w) ->
        forall m, In m messages -> settled m w').
Proof.
  intros T Mono.
  induction messages as [|message messages IH]; intros history n w r w' St E.
  - inversion E. subst. split; [apply later_refl|]. split; [eauto|]. now intros _ m [].
  - rewrite for_each_cons in E.
    destruct (process_message cfg env chat thread (history, n) message w)
      as [r1 w1] eqn:E1.
    destruct (step_no_raise _ _ _ _ _ _ _ _ _ T E1) as [[h1 n1] ->].
    destruct (step_later _ _ _ _ _ _ _ _ St E1) as [L1 Sy].
    destruct (IH h1 n1 w1 r w' (Sy _ eq_refl) E) as (L2 & OkR & Se).
    split; [now apply (later_trans _ w1)|]. split; [exact OkR|].
    intros NF m [<-|I].
    + destruct (no_failure_between _ _ _ L1 L2 NF) as [NF1 NF2].
      apply (settled_later message w1); [|exact L2].
      now apply (step_settles _ _ _ _ _ _ _ _ Mono St E1).
    + destruct (no_failure_between _ _ _ L1 L2 NF) as [NF1 NF2]. now apply Se.
Qed.

Lemma channel_settles channel chat thread window w r w' :
  timedelta_hours (MESSAGE_WINDOW_HOURS cfg) = Ok window ->
  clock_is_monotone -> fetch_is_fixed ->
  process_channel cfg env channel chat thread w = (r, w') ->
  later w w'
  /\ r = Ok tt
  /\ (events_of is_failed_post (trace w') = events_of is_failed_post (trace w) ->
      channel_settled channel w').
Proof.
  intros T Mono Fx E.
  destruct (discord_get env (S (List.length (trace w))) channel) as [response|] eqn:F.
  - destruct (sorted_by_timestamp response) as [|x l] eqn:So.
    + rewrite (process_channel_no_messages _ chat thread _ _ F So) in E.
      inversion E. split; [apply later_after|]. split; [reflexivity|].
      intros _ response' m F' I. rewrite (Fx O (S (List.length (trace w)))), F in F'.
      inversion F'; subst. apply In_sorted_by_timestamp in I. rewrite So in I. destruct I.
    + rewrite (process_channel_fetched _ chat thread _ _ _ _ F So) in E.
      destruct (for_each _ _ _ _) as [r2 w2] eqn:E2.
      destruct (loop_settles chat thread window (x :: l) T Mono (stored w) O
                  (after [EvLoad; EvFetch channel;
                          EvLog INFO (ProcessingChannel channel)] w) r2 w2 eq_refl E2)
        as (L2 & [st ->] & Se).
      inversion E; subst.
      pose proof (later_after [EvLoad; EvFetch channel;
                               EvLog INFO (ProcessingChannel channel)] w) as L1.
      pose proof (later_after [EvLog INFO (ProcessedNew (snd st) channel)] w2) as L3.
      split; [exact (later_trans _ _ _ L1 (later_trans _ _ _ L2 L3))|].
      split; [reflexivity|].
      intros NF response' m F' I.
      rewrite (Fx O (S (List.length (trace w)))), F in F'. inversion F'; subst.
      destruct (no_failure_between _ _ _ L1 (later_trans _ _ _ L2 L3) NF) as [_ NF1].
      destruct (no_failure_between _ _ _ L2 L3 NF1) as [NF2 _].
      apply (settled_later m w2); [|exact L3].
      apply (Se NF2). rewrite <- So. now apply In_sorted_by_timestamp.
  - rewrite (process_channel_fetch_failure _ chat thread _ F) in E.
    inversion E. split; [apply later_after|]. split; [reflexivity|].
    intros _ response m F' I. rewrite (Fx O (S (List.length (trace w)))), F in F'.
    discriminate.
Qed.

Lemma mappings_settle window mappings :
  timedelta_hours (MESSAGE_WINDOW_HOURS cfg) = Ok window ->
  clock_is_monotone -> fetch_is_fixed ->
  forall w r w',
    run_mappings cfg env mappings w = (r, w') ->
    later w w'
    /\ r = Ok tt
    /\ (events_of is_failed_post (trace w') = events_of is_failed_post (trace w) ->
        mappings_settled mappings w').
Proof.
  intros T Mono Fx.
  induction mappings as [|[channel [chat thread]] mappings IH]; intros w r w' E.
  - inversion E. split; [apply later_refl|]. split; [reflexivity|].
    now intros _ ch c t [].
  - rewrite run_mappings_cons in E.
    destruct (process_channel cfg env channel chat thread w) as [r1 w1] eqn:E1.
    destruct (channel_settles _ _ _ _ _ _ _ T Mono Fx E1) as (L1 & -> & Se1).
    destruct (IH _ _ _ E) as (L2 & -> & Se2).
    split; [now apply (later_trans _ w1)|]. split; [reflexivity|].
    intros NF ch c t I.
    destruct (no_failure_between _ _ _ L1 L2 NF) as [NF1 NF2].
    destruct I as [[= <- <- <-]|I].
    + apply (channel_settled_later channel w1); auto.
    + now apply (Se2 NF2 ch c t).
Qed.

Lemma main_without_tokens w :
  truthy (DISCORD_BOT_TOKEN cfg) && truthy (TELEGRAM_BOT_TOKEN cfg) = false ->
  main cfg env w
  = (Ok tt, after [EvLog ERROR FatalTokenNotSet; EvLog INFO StartingMirror] w).
Proof. intros Tk. unfold main. rewrite Tk. reflexivity. Qed.

Lemma main_with_tokens w :
  truthy (DISCORD_BOT_TOKEN cfg) && truthy (TELEGRAM_BOT_TOKEN cfg) = true ->
  main cfg env w
  = match run_mappings cfg env (CHANNEL_MAPPING cfg)
            (after [EvLog INFO StartingMirror] w) with
    | (Ok _, w') => (Ok tt, after [EvLog INFO MirrorRunFinished] w')
    | (Raise e, w') => (Raise e, w')
    end.
Proof.
  intros Tk. unfold main. rewrite Tk.
  rewrite (bind_Ok _ _ _ _ _ (eq_refl : log _ _ w = (Ok tt, after [_] w))).
  unfold bind. destruct (run_mappings _ _ _ _) as [[[]|e] w']; reflexivity.
Qed.

(** C7. Two runs of [main], the second from the world that the first
    left, so with the history file of the first.  The fetch of a channel
    gives the same in both runs, the clock does not go back and no post of
    the first run failed.  Then the second run posts nothing. *)
Theorem second_run_sends_nothing w0 r1 w1 r2 w2 :
  (forall i j channel, discord_get env i channel = discord_get env j channel) ->
  (forall i j, (i <= j)%nat -> (utc_clock env i <= utc_clock env j)%Z) ->
  main cfg env w0 = (r1, w1) ->
  events_of is_failed_post (trace w1) = events_of is_failed_post (trace w0) ->
  main cfg env w1 = (r2, w2) ->
  events_of is_post (trace w2) = events_of is_post (trace w1).
Proof.
  intros Fx Mono E1 NF E2.
  enough (Q : quiet w1 w2).
  { destruct Q as [(evs & -> & P) _]. unfold events_of in *.
    now rewrite List.filter_app, P. }
  destruct (truthy (DISCORD_BOT_TOKEN cfg) && truthy (TELEGRAM_BOT_TOKEN cfg)) eqn:Tk.
  2:{ rewrite (main_without_tokens _ Tk) in E2. inversion E2. now apply quiet_after. }
  rewrite (main_with_tokens w0 Tk) in E1. rewrite (main_with_tokens w1 Tk) in E2.
  assert (Se : mappings_settled (CHANNEL_MAPPING cfg) (after [EvLog INFO StartingMirror] w1)).
  { destruct (timedelta_hours (MESSAGE_WINDOW_HOURS cfg)) as [window|e] eqn:T.
    2:{ intros ch c t _ response m _ _. right. right. left. now exists e. }
    destruct (run_mappings _ _ _ (after [EvLog INFO StartingMirror] w0))
      as [ra wa] eqn:Ea.
    destruct (mappings_settle window _ T Mono Fx _ _ _ Ea) as (La & -> & Sa).
    inversion E1; subst.
    pose proof (later_after [EvLog INFO StartingMirror] w0) as L0.
    pose proof (later_after [EvLog INFO MirrorRunFinished] wa) as L1.
    pose proof (later_after [EvLog INFO StartingMirror]
                  (after [EvLog INFO MirrorRunFinished] wa)) as L2.
    destruct (no_failure_between _ _ _ L0 (later_trans _ _ _ La L1) NF) as [_ NF1].
    destruct (no_failure_between _ _ _ La L1 NF1) as [NF2 _].
    intros ch c t I.
    apply (channel_settled_later ch wa); [now apply (Sa NF2 ch c t)|].
    exact (later_trans _ _ _ L1 L2). }
  destruct (run_mappings _ _ _ (after [EvLog INFO StartingMirror] w1)) as [rb wb] eqn:Eb.
  pose proof (mappings_quiet _ _ _ _ Fx Se Eb) as Qb.
  assert (Q0 : quiet w1 wb).
  { apply (quiet_trans _ (after [EvLog INFO StartingMirror] w1)); [|exact Qb].
    apply quiet_after. reflexivity. }
  destruct rb as [[]|e]; inversion E2; subst; [|exact Q0].
  eapply quiet_trans; [exact Q0|now apply quiet_after].
Qed.

(** *** Channels *)

(** C8. When the fetch of a channel fails, the channel is left with
    four events, the fetch and three log lines (no send, no write), and the
    run goes on with the mappings behind it exactly as it would from there:
    the failure is not fatal. *)
Theorem fetch_failure_skips_one_channel before channel chat thread rest w w1 :
  run_mappings cfg env before w = (Ok tt, w1) ->
  discord_get env (S (List.length (trace w1))) channel = None ->
  let w2 := after [EvLog WARNING (NoMessagesFound channel);
                   EvLog ERROR ErrorFetchingFromDiscord;
                   EvFetch channel;
                   EvLog INFO (ProcessingChannel channel)] w1 in
  process_channel cfg env channel chat thread w1 = (Ok tt, w2)
  /\ run_mappings cfg env (before ++ (channel, (chat, thread)) :: rest) w
     = run_mappings cfg env rest w2.
Proof.
  intros B F w2. pose proof (process_channel_fetch_failure _ chat thread _ F) as P.
  split; [exact P|].
  unfold run_mappings in *. rewrite for_each_app.
  rewrite (bind_Ok _ _ _ _ _ B). simpl.
  rewrite (bind_Ok _ _ _ _ _ P). reflexivity.
Qed.

(** ** More of the program *)

(** *** The order of the fetched messages *)

Lemma str_ltb_irrefl a : str_ltb a a = false.
Proof.
  induction a as [|x a IH]; simpl; [reflexivity|].
  now rewrite N.ltb_irrefl, N.eqb_refl, IH.
Qed.

Lemma str_ltb_trans a b c :
  str_ltb a b = true -> str_ltb b c = true -> str_ltb a c = true.
Proof.
  revert b c. induction a as [|x a IH]; intros [|y b] [|z c]; simpl; try discriminate;
    try reflexivity.
  destruct (N.ltb_spec x y), (N.eqb_spec x y), (N.ltb_spec y z), (N.eqb_spec y z),
    (N.ltb_spec x z), (N.eqb_spec x z); simpl; try discriminate; try reflexivity;
    try lia.
  apply IH.
Qed.

Lemma str_ltb_total a b :
  str_ltb a b = false -> str_ltb b a = false -> a = b.
Proof.
  revert b. induction a as [|x a IH]; intros [|y b]; simpl; try discriminate;
    try reflexivity.
  destruct (N.ltb_spec x y), (N.eqb_spec x y), (N.ltb_spec y x), (N.eqb_spec y x);
    simpl; try discriminate; try lia.
  intros A B. subst. f_equal. now apply IH.
Qed.

Lemma timestamp_le_trans a b c :
  timestamp_le a b -> timestamp_le b c -> timestamp_le a c.
Proof.
  unfold timestamp_le. intros AB BC.
  destruct (str_ltb (m_timestamp c) (m_timestamp a)) eqn:CA; [|reflexivity].
  destruct (str_ltb (m_timestamp a) (m_timestamp b)) eqn:AB'.
  - rewrite (str_ltb_trans _ _ _ CA AB') in BC. discriminate.
  - rewrite (str_ltb_total _ _ AB' AB) in CA. congruence.
Qed.

Lemma insert_sorted_perm x l : Permutation (insert_sorted x l) (x :: l).
Proof.
  induction l as [|y l IH]; simpl; [reflexivity|].
  destruct (str_ltb (m_timestamp y) (m_timestamp x)); [|reflexivity].
  rewrite IH. apply perm_swap.
Qed.

Lemma insert_sorted_sorted x l :
  StronglySorted timestamp_le l -> StronglySorted timestamp_le (insert_sorted x l).
Proof.
  induction 1 as [|y l S IH F]; simpl.
  - repeat constructor.
  - destruct (str_ltb (m_timestamp y) (m_timestamp x)) eqn:E.
    + constructor; [exact IH|].
      rewrite (insert_sorted_perm x l). constructor; [|exact F].
      unfold timestamp_le.
      destruct (str_ltb (m_timestamp x) (m_timestamp y)) eqn:E'; [|reflexivity].
      pose proof (str_ltb_trans _ _ _ E E') as C. rewrite str_ltb_irrefl in C.
      discriminate.
    + constructor; [now constructor|]. constructor; [exact E|].
      eapply Forall_impl; [exact F|]. intros z. now apply timestamp_le_trans.
Qed.

Lemma insert_sorted_stable ts x l :
  List.filter (has_timestamp ts) (insert_sorted x l)
  = List.filter (has_timestamp ts) (x :: l).
Proof.
  induction l as [|y l IH]; [reflexivity|].
  cbn [insert_sorted].
  destruct (str_ltb (m_timestamp y) (m_timestamp x)) eqn:E; [|reflexivity].
  cbn [List.filter] in *. rewrite IH.
  unfold has_timestamp.
  destruct (bool_decide (m_timestamp x = ts)) eqn:X; [|reflexivity].
  destruct (bool_decide (m_timestamp y = ts)) eqn:Y; [|reflexivity].
  apply bool_decide_eq_true in X, Y. rewrite X, Y, str_ltb_irrefl in E. discriminate.
Qed.

(** X1. When the fetch succeeds, [get_discord_messages] answers with the
    messages of the response rearranged: none lost and none added, in
    ascending order of their timestamp strings, and those with the same
    timestamp in the order they came in. *)
Theorem get_discord_messages_sorted channel w response :
  discord_get env (List.length (trace w)) channel = Some response ->
  exists messages,
    get_discord_messages env channel w
    = (Ok (Some messages), after [EvFetch channel] w)
    /\ Permutation messages response
    /\ StronglySorted timestamp_le messages
    /\ forall ts, List.filter (has_timestamp ts) messages
                  = List.filter (has_timestamp ts) response.
Proof.
  intros F. exists (sorted_by_timestamp response).
  split; [now apply get_discord_messages_fetched|].
  clear F. induction response as [|x l (P & S & St)]; simpl.
  - repeat split; constructor.
  - split; [|split].
    + rewrite insert_sorted_perm. now constructor.
    + now apply insert_sorted_sorted.
    + intros ts. rewrite insert_sorted_stable. cbn [List.filter]. now rewrite St.
Qed.

(** *** The content filter, again *)

Lemma sub_from_sublist r k s : sub_from r k s `sublist_of` s.
Proof.
  revert k. induction s as [|c s IH]; intros k; simpl; [constructor|].
  destruct k as [|k]; [|apply sublist_cons, IH].
  destruct (match_regex r (c :: s)) as [[|n]|];
    first [apply sublist_skip, IH | apply sublist_cons, IH].
Qed.

(** [lstrip] cuts a run of white space off the front. *)
Lemma lstrip_split s :
  exists pre, s = pre ++ lstrip s
              /\ Forall (fun c => py_isspace c = true) pre
              /\ match lstrip s with
                 | [] => True
                 | c :: _ => py_isspace c = false
                 end.
Proof.
  induction s as [|c s (pre & E & F & Hd)]; simpl.
  - exists []. repeat split; constructor.
  - destruct (py_isspace c) eqn:Sp.
    + exists (c :: pre). split; [simpl; f_equal; exact E|].
      split; [now constructor|exact Hd].
    + exists []. split; [reflexivity|]. split; [constructor|exact Sp].
Qed.

(** [strip] cuts white space off both ends, and what is left neither
    starts nor ends with white space. *)
Lemma strip_split s :
  exists pre post,
    s = pre ++ strip s ++ post
    /\ Forall (fun c => py_isspace c = true) pre
    /\ Forall (fun c => py_isspace c = true) post
    /\ (forall c rest, strip s = c :: rest -> py_isspace c = false)
    /\ (forall c front, strip s = front ++ [c] -> py_isspace c = false).
Proof.
  destruct (lstrip_split s) as (pre & E1 & F1 & H1).
  destruct (lstrip_split (rev (lstrip s))) as (tsop & E2 & F2 & H2).
  assert (E3 : lstrip s = strip s ++ rev tsop).
  { unfold strip, rstrip. rewrite <- rev_app_distr, <- E2. now rewrite rev_involutive. }
  exists pre, (rev tsop). split; [now rewrite <- E3|]. split; [exact F1|].
  split; [now apply Forall_rev|]. split.
  - intros c rest E. rewrite E in E3. rewrite E3 in H1. exact H1.
  - intros c front E. unfold strip, rstrip in E.
    apply (f_equal (@rev N)) in E. rewrite rev_involutive, rev_app_distr in E.
    simpl in E. rewrite E in H2. exact H2.
Qed.

Lemma strip_sublist s : strip s `sublist_of` s.
Proof.
  destruct (strip_split s) as (pre & post & E & _).
  rewrite E at 2. apply sublist_inserts_l, sublist_inserts_r. reflexivity.
Qed.

Lemma passes_sublist words s :
  fold_left (fun content word => re_sub (escape_ignorecase word) content) words s
  `sublist_of` s.
Proof.
  revert s. induction words as [|word words IH]; intros s; simpl; [reflexivity|].
  etransitivity; [apply IH|apply sub_from_sublist].
Qed.

Lemma filter_content_sublist content :
  filter_content cfg content `sublist_of` default [] content.
Proof.
  destruct content as [[|c s]|]; [constructor| |constructor].
  unfold filter_content, default.
  etransitivity; [apply strip_sublist|apply passes_sublist].
Qed.

(** X2. [filter_content] only deletes: its output is the input with some
    characters left out, the others in their order; and the output neither
    starts nor ends with white space. *)
Theorem filter_content_deletes_and_trims content :
  filter_content cfg content `sublist_of` default [] content
  /\ (forall c rest, filter_content cfg content = c :: rest -> py_isspace c = false)
  /\ (forall c front, filter_content cfg content = front ++ [c] -> py_isspace c = false).
Proof.
  split; [apply filter_content_sublist|].
  destruct content as [[|c s]|]; simpl.
  - split; [discriminate|]. now intros c [|x f].
  - destruct (strip_split (fold_left (fun content word =>
                re_sub (escape_ignorecase word) content) (FILTER_WORDS cfg) (c :: s)))
      as (_ & _ & _ & _ & _ & Hd & Tl). split; assumption.
  - split; [discriminate|]. now intros c [|x f].
Qed.

(** Where a pattern matches nowhere (or only the empty string), the
    substitution changes nothing. *)
Lemma sub_from_no_match r s :
  (forall i, match_regex r (drop i s) = None \/ match_regex r (drop i s) = Some O) ->
  sub_from r O s = s.
Proof.
  induction s as [|c s IH]; intros Hn; simpl; [reflexivity|].
  rewrite IH by (intros i; apply (Hn (S i))).
  destruct (Hn O) as [E|E]; simpl in E; now rewrite E.
Qed.

Lemma occurs_ic_drop word s i :
  occurs_ic word s = false -> prefix_ic word (drop i s) = false.
Proof.
  revert s. induction i as [|i IH]; intros s O.
  - rewrite drop_0. destruct s; simpl in O; now apply orb_false_iff in O.
  - destruct s as [|c s]; simpl in *.
    + now apply orb_false_iff in O.
    + apply IH. now apply orb_false_iff in O.
Qed.

(** X3. A text in which no banned phrase occurs, in any case, is only
    trimmed. *)
Theorem filter_content_without_phrases T :
  (forall word, In word (FILTER_WORDS cfg) -> word <> [] -> occurs_ic word T = false) ->
  filter_content cfg (Some T) = strip T.
Proof.
  intros Hw.
  assert (E : fold_left (fun content word => re_sub (escape_ignorecase word) content)
                (FILTER_WORDS cfg) T = T).
  { induction (FILTER_WORDS cfg) as [|word words IH]; simpl; [reflexivity|].
    assert (R : re_sub (escape_ignorecase word) T = T).
    { apply sub_from_no_match. intros i. rewrite match_escape_ignorecase.
      destruct word as [|p word]; [right; reflexivity|].
      rewrite (occurs_ic_drop _ _ i (Hw _ (or_introl eq_refl) ltac:(discriminate))).
      now left. }
    rewrite R. apply IH. intros w I. apply Hw. now right. }
  destruct T as [|c T]; [reflexivity|].
  unfold filter_content. now rewrite E.
Qed.

(** *** Cleaning *)

Lemma sub_from_cons r k c s :
  sub_from r k (c :: s)
  = match k with
    | S k' => sub_from r k' s
    | O => match match_regex r (c :: s) with
           | Some (S n) => sub_from r n s
           | _ => c :: sub_from r O s
           end
    end.
Proof. reflexivity. Qed.

Lemma match_formatting c s :
  match_regex formatting (c :: s) = if is_formatting c then Some 1%nat else None.
Proof.
  unfold formatting, is_formatting. simpl.
  now destruct (is_chr "*" c || is_chr "_" c || is_chr "~" c || is_chr "`" c
                || is_chr "|" c).
Qed.

Lemma sub_from_formatting k s :
  Forall (fun c => is_formatting c = false) (sub_from formatting k s).
Proof.
  revert k. induction s as [|c s IH]; intros k; [constructor|].
  rewrite sub_from_cons. destruct k as [|k]; [|apply IH].
  rewrite match_formatting.
  destruct (is_formatting c) eqn:E; [apply IH|].
  constructor; [exact E|apply IH].
Qed.

Lemma clean_content_sublist content :
  clean_content_for_telegram cfg content `sublist_of` default [] content.
Proof.
  destruct content as [[|c s]|]; [constructor| |constructor].
  unfold clean_content_for_telegram, default.
  etransitivity; [apply (filter_content_sublist (Some _))|]. unfold default, re_sub.
  etransitivity; [apply sub_from_sublist|].
  etransitivity; [apply sub_from_sublist|]. apply sub_from_sublist.
Qed.

(** X4. [clean_content_for_telegram] only deletes characters, and none of
    the characters [*], [_], [~], [`] and [|] is left in its output. *)
Theorem clean_content_has_no_markup content :
  clean_content_for_telegram cfg content `sublist_of` default [] content
  /\ Forall (fun c => is_formatting c = false) (clean_content_for_telegram cfg content).
Proof.
  split; [apply clean_content_sublist|].
  destruct content as [[|c s]|]; [constructor| |constructor].
  unfold clean_content_for_telegram.
  destruct (re_sub formatting (re_sub mention (re_sub custom_emoji (c :: s))))
    as [|x t] eqn:E; [constructor|].
  unfold filter_content. apply strip_Forall, passes_Forall.
  rewrite <- E. apply sub_from_formatting.
Qed.

Lemma match_needs_bracket r s :
  Forall (fun b => match b with
                   | (cls, One) :: _ => forall c, cls c = true -> c = chr "<"
                   | _ => False
                   end) r ->
  match s with c :: _ => c <> chr "<" | [] => True end ->
  match_regex r s = None.
Proof.
  intros F Hs. induction F as [|b r Hb F IH]; simpl; [reflexivity|].
  rewrite IH. destruct b as [|[cls [| |]] b]; try contradiction.
  simpl. destruct s as [|c s]; simpl; [reflexivity|].
  destruct (cls c) eqn:E; [|reflexivity]. apply Hb in E. contradiction.
Qed.

Lemma is_chr_eq a c : is_chr a c = true -> c = chr a.
Proof. unfold is_chr. apply N.eqb_eq. Qed.

Lemma sub_from_no_bracket r s :
  Forall (fun b => match b with
                   | (cls, One) :: _ => forall c, cls c = true -> c = chr "<"
                   | _ => False
                   end) r ->
  Forall (fun c => c <> chr "<") s ->
  sub_from r O s = s.
Proof.
  intros Fr Fs. apply sub_from_no_match. intros i. left.
  apply match_needs_bracket; [exact Fr|].
  pose proof (Forall_drop _ i _ Fs) as Fd.
  destruct (drop i s) as [|c t]; [exact I|]. now inversion Fd.
Qed.

(** X5. A text without [<] and without the five formatting characters
    passes the three substitutions unchanged: it is cleaned exactly as
    [filter_content] filters it. *)
Theorem clean_content_plain_text s :
  Forall (fun c => c <> chr "<" /\ is_formatting c = false) s ->
  clean_content_for_telegram cfg (Some s) = filter_content cfg (Some s).
Proof.
  intros F. destruct s as [|c s]; [reflexivity|].
  unfold clean_content_for_telegram.
  assert (Fb : Forall (fun c => c <> chr "<") (c :: s))
    by (eapply Forall_impl; [exact F|]; now intros x [A _]).
  unfold re_sub.
  rewrite (sub_from_no_bracket custom_emoji), (sub_from_no_bracket mention); auto.
  - f_equal. f_equal. apply sub_from_no_match. intros i. left.
    destruct (drop i (c :: s)) as [|x t] eqn:D; [reflexivity|].
    assert (Fx : is_formatting x = false).
    { assert (Fd : Forall (fun c => c <> chr "<" /\ is_formatting c = false)
                     (drop i (c :: s))) by now apply Forall_drop.
      rewrite D in Fd. inversion Fd as [|? ? [_ Q]]. exact Q. }
    now rewrite match_formatting, Fx.
  - repeat constructor; intros x; apply is_chr_eq.
  - repeat constructor; intros x; apply is_chr_eq.
Qed.

(** *** Embeds and the text of a message *)

Lemma nonempty_false s : nonempty s = false <-> s = [].
Proof. destruct s; simpl; split; congruence. Qed.

Lemma join_nil sep parts :
  Forall (fun p => p <> []) parts -> join sep parts = [] -> parts = [].
Proof.
  intros F. destruct F as [|p rest Hp F]; [reflexivity|].
  destruct p as [|c p]; [congruence|]. destruct rest; discriminate.
Qed.

Lemma if_nonempty_nil (s t : pystr) :
  (if nonempty s then [t] else []) = [] <-> s = [].
Proof. destruct s; simpl; split; congruence. Qed.

Lemma field_parts_nil fields :
  field_parts cfg fields = []
  <-> forall field, In field fields ->
        filter_content cfg (f_name field) = []
        \/ clean_content_for_telegram cfg (f_value field) = [].
Proof.
  induction fields as [|f fields IH]; simpl; [tauto|].
  rewrite app_nil, IH. split.
  - intros [E A] field [<-|I]; [|now apply A].
    destruct (filter_content cfg (f_name f)); [now left|].
    destruct (clean_content_for_telegram cfg (f_value f)); [now right|discriminate].
  - intros A. split; [|intros field I; apply A; now right].
    destruct (A f (or_introl eq_refl)) as [-> | ->]; [reflexivity|].
    now rewrite andb_false_r.
Qed.

Lemma field_parts_nonempty fields :
  Forall (fun p => p <> []) (field_parts cfg fields).
Proof.
  induction fields as [|f fields IH]; simpl; [constructor|].
  apply Forall_app. split; [|exact IH].
  destruct (_ && _); repeat constructor. discriminate.
Qed.

(** X6. An embed renders to the empty string exactly when its title
    filters to nothing, its description cleans to nothing and every field
    lacks a name or a value after cleaning. *)
Theorem process_embed_empty embed :
  process_embed cfg embed = []
  <-> filter_content cfg (e_title embed) = []
      /\ clean_content_for_telegram cfg (e_description embed) = []
      /\ forall field, In field (default [] (e_fields embed)) ->
           filter_content cfg (f_name field) = []
           \/ clean_content_for_telegram cfg (f_value field) = [].
Proof.
  unfold process_embed.
  set (title := filter_content cfg (e_title embed)).
  set (description := clean_content_for_telegram cfg (e_description embed)).
  set (fs := match e_fields embed with Some fields => field_parts cfg fields | None => [] end).
  assert (Ef : fs = []
               <-> forall field, In field (default [] (e_fields embed)) ->
                     filter_content cfg (f_name field) = []
                     \/ clean_content_for_telegram cfg (f_value field) = []).
  { unfold fs. destruct (e_fields embed) as [fields|]; simpl; [apply field_parts_nil|].
    split; [now intros _ field []|reflexivity]. }
  split.
  - intros E. apply join_nil in E.
    + apply app_nil in E as [E1 E2]. apply app_nil in E2 as [E2 E3].
      apply if_nonempty_nil in E1, E2. rewrite <- Ef. auto.
    + apply Forall_app. split; [|apply Forall_app; split].
      * destruct (nonempty title); repeat constructor. discriminate.
      * destruct description; repeat constructor. discriminate.
      * unfold fs. destruct (e_fields embed); [apply field_parts_nonempty|constructor].
  - intros (E1 & E2 & E3). apply Ef in E3. now rewrite E1, E2, E3.
Qed.

(** X7. A field that lacks a name or a value after cleaning is dropped
    without a trace: the embed renders as if the field were not there. *)
Theorem process_embed_drops_incomplete_field title description before field behind :
  filter_content cfg (f_name field) = []
  \/ clean_content_for_telegram cfg (f_value field) = [] ->
  process_embed cfg {| e_title := title; e_description := description;
                       e_fields := Some (before ++ field :: behind) |}
  = process_embed cfg {| e_title := title; e_description := description;
                         e_fields := Some (before ++ behind) |}.
Proof.
  intros E. unfold process_embed, field_parts. simpl.
  rewrite !flat_map_app. simpl.
  assert (N : nonempty (filter_content cfg (f_name field))
              && nonempty (clean_content_for_telegram cfg (f_value field)) = false).
  { destruct E as [-> | ->]; [reflexivity|apply andb_false_r]. }
  now rewrite N.
Qed.

(** X8. The text of a message is empty exactly when its content cleans
    to nothing and every embed renders to nothing. *)
Theorem full_text_empty message :
  full_text cfg message = []
  <-> clean_content_for_telegram cfg (m_content message) = []
      /\ forall embed, In embed (m_embeds message) -> process_embed cfg embed = [].
Proof.
  unfold full_text.
  set (content := clean_content_for_telegram cfg (m_content message)).
  assert (Ee : forall embeds,
             flat_map (fun embed => if nonempty (process_embed cfg embed)
                                    then [process_embed cfg embed] else []) embeds = []
             <-> forall embed, In embed embeds -> process_embed cfg embed = []).
  { induction embeds as [|e embeds IH]; simpl; [tauto|].
    rewrite app_nil, IH, if_nonempty_nil. split.
    - intros [E A] embed [<-|I]; auto.
    - intros A. split; [apply A; now left|]. intros embed I. apply A. now right. }
  assert (Fe : forall embeds,
             Forall (fun p => p <> [])
               (flat_map (fun embed => if nonempty (process_embed cfg embed)
                                       then [process_embed cfg embed] else []) embeds)).
  { induction embeds as [|e embeds IH]; simpl; [constructor|].
    apply Forall_app. split; [|exact IH].
    destruct (process_embed cfg e); repeat constructor. discriminate. }
  split.
  - intros E. apply join_nil in E.
    + apply app_nil in E as [E1 E2]. apply if_nonempty_nil in E1.
      split; [exact E1|exact (proj1 (Ee _) E2)].
    + apply Forall_app. split.
      * destruct content; repeat constructor. discriminate.
      * apply Fe.
  - intros [E1 E2]. rewrite E1, (proj2 (Ee _) E2). reflexivity.
Qed.

(** *** The forwarder, again *)

Lemma build_media_media history text i urls :
  List.map media (build_media history text i urls) = eligible history urls.
Proof.
  revert i. induction urls as [|url urls IH]; intros i; simpl; [reflexivity|].
  destruct (in_history url history); simpl; [apply IH|]. now rewrite IH.
Qed.

(** X9. The request that the forwarder posts is chosen by the urls that
    are not yet in the history file: with two or more, one album of exactly
    these urls in their order; with one, one photo of it, captioned with the
    text or not at all; with none, the text as a message when it is not
    empty, and otherwise nothing. *)
Theorem send_to_telegram_selection chat thread text urls w :
  exists evs,
    trace (snd (send_to_telegram env chat thread text (Some urls) w)) = evs ++ trace w
    /\ match eligible (stored w) urls with
       | [] =>
           if truthy text
           then exists ok,
                  events_of is_post evs
                  = [EvPost (SendMessage chat thread (default [] text)) ok]
           else events_of is_post evs = []
       | [url] =>
           exists cap ok,
             events_of is_post evs = [EvPost (SendPhoto chat thread url cap) ok]
             /\ (cap = None \/ cap = text)
       | _ :: _ :: _ =>
           exists items ok,
             events_of is_post evs = [EvPost (SendMediaGroup chat thread items) ok]
             /\ List.map media items = eligible (stored w) urls
       end.
Proof.
  pose proof (build_media_media (stored w) text 0 urls) as M.
  pose proof (build_media_captions (stored w) text urls) as C.
  unfold send_to_telegram, load_upload_history, post, log.
  unfold bind, emit, ticks, ret; simpl.
  change (default ∅ (file w)) with (stored w).
  destruct (build_media (stored w) text 0 urls) as [|i1 [|i2 l]]; rewrite <- M; simpl.
  - destruct text as [[|c text]|]; simpl.
    + exists [EvLoad]. split; reflexivity.
    + destruct (telegram_post env _ _) eqn:P; simpl;
        eexists [_; _; _]; (split; [reflexivity|]); eexists; reflexivity.
    + exists [EvLoad]. split; reflexivity.
  - destruct C as [_ C].
    destruct (telegram_post env _ _) eqn:P; simpl;
      eexists [_; _; _]; (split; [reflexivity|]); eexists _, _;
      (split; [reflexivity|]); tauto.
  - destruct (telegram_post env _ _) eqn:P; simpl;
      eexists [_; _; _]; (split; [reflexivity|]); eexists _, _;
      (split; reflexivity).
Qed.

(** X10. Whatever its arguments, the forwarder reads the history file
    once and never writes it, and it posts at most once; when it answers
    success, its one post went through and it reports the urls it was
    given. *)
Theorem send_to_telegram_one_post chat thread text urls w :
  file (snd (send_to_telegram env chat thread text urls w)) = file w
  /\ exists evs,
       trace (snd (send_to_telegram env chat thread text urls w)) = evs ++ trace w
       /\ events_of is_load evs = [EvLoad]
       /\ events_of is_save evs = []
       /\ (List.length (events_of is_post evs) <= 1)%nat
       /\ forall sent,
            fst (send_to_telegram env chat thread text urls w) = Ok (true, sent) ->
            urls = Some sent /\ exists req, events_of is_post evs = [EvPost req true].
Proof.
  unfold send_to_telegram, load_upload_history, post, log.
  unfold bind, emit, ticks, ret; simpl.
  set (l := match urls with Some us => build_media _ text 0 us | None => [] end).
  destruct l as [|i1 [|i2 l]]; simpl.
  - destruct text as [[|c text]|]; simpl.
    + split; [reflexivity|]. exists [EvLoad]. repeat split; auto; congruence.
    + destruct (telegram_post env _ _) eqn:P; simpl.
      * destruct urls as [us|]; simpl; (split; [reflexivity|]); eexists [_; _; _];
          (split; [reflexivity|]); (split; [reflexivity|]); (split; [reflexivity|]);
          (split; [simpl; lia|]); intros sent E; inversion E; subst.
        split; [reflexivity|]. now eexists.
      * split; [reflexivity|]. eexists [_; _; _].
        repeat split; auto; congruence.
    + split; [reflexivity|]. exists [EvLoad]. repeat split; auto; congruence.
  - destruct (telegram_post env _ _) eqn:P; simpl.
    + destruct urls as [us|]; simpl; (split; [reflexivity|]); eexists [_; _; _];
        (split; [reflexivity|]); (split; [reflexivity|]); (split; [reflexivity|]);
        (split; [simpl; lia|]); intros sent E; inversion E; subst.
      split; [reflexivity|]. now eexists.
    + split; [reflexivity|]. eexists [_; _; _].
      repeat split; auto; congruence.
  - destruct (telegram_post env _ _) eqn:P; simpl.
    + destruct urls as [us|]; simpl; (split; [reflexivity|]); eexists [_; _; _];
        (split; [reflexivity|]); (split; [reflexivity|]); (split; [reflexivity|]);
        (split; [simpl; lia|]); intros sent E; inversion E; subst.
      split; [reflexivity|]. now eexists.
    + split; [reflexivity|]. eexists [_; _; _].
      repeat split; auto; congruence.
Qed.

(** X11. Called with a text and without [image_urls] (the default
    [None]), the forwarder posts the text and, when the post goes through,
    fails with a [TypeError] at the list of sent items: the caller gets no
    answer for a message that was delivered. *)
Theorem send_to_telegram_default_urls chat thread c text w :
  telegram_post env (S (List.length (trace w))) (SendMessage chat thread (c :: text))
  = true ->
  send_to_telegram env chat thread (Some (c :: text)) None w
  = (Raise TypeError,
     after [EvLog INFO SentTextOnly;
            EvPost (SendMessage chat thread (c :: text)) true; EvLoad] w).
Proof.
  intros P. unfold send_to_telegram, load_upload_history, post, log.
  unfold bind, emit, ticks, ret; simpl. rewrite P. reflexivity.
Qed.

(** *** The loop body, again *)

(** X12. A message that is new, recent and has something to send, with
    a transport that accepts the post: the step makes exactly one post, adds
    the id of the message and every one of its image urls to the history,
    adds nothing else and removes nothing, counts the message and writes the
    history to the file. *)
Theorem process_message_records chat thread history n message w :
  in_history (m_id message) history = false ->
  fst (is_within_window cfg env (m_timestamp message) w) = Ok true ->
  full_text cfg message <> []
  \/ eligible (stored w) (image_urls_of message) <> [] ->
  (forall req, telegram_post env (2 + List.length (trace w)) req = true) ->
  exists history' evs,
    process_message cfg env chat thread (history, n) message w
    = (Ok (history', S n),
       {| file := Some history';
          trace := EvSleep REQUEST_DELAY :: EvSave history' :: evs ++ trace w |})
    /\ (forall key, in_history key history' = true
                    <-> in_history key history = true \/ key = m_id message
                        \/ In key (image_urls_of message))
    /\ exists req, events_of is_post evs = [EvPost req true].
Proof.
  intros Hin Hrec Content Up.
  destruct (process_message cfg env chat thread (history, n) message w)
    as [r w'] eqn:E.
  apply process_message_step in E.
  destruct E as [Hin'|_ P|t e _ P T|t window _ P T R
                 |t window evs _ P T R O|t window evs nows history' _ P T R O F K].
  - congruence.
  - rewrite (is_within_window_unparsed _ _ P) in Hrec. discriminate.
  - rewrite (is_within_window_parsed _ _ _ P), T in Hrec. discriminate.
  - rewrite (is_within_window_parsed _ _ _ P), T, R in Hrec. discriminate.
  - exfalso. inversion O as [X1 X2|req C X1| ]; subst.
    + destruct Content as [C|C]; [congruence|]. apply C.
      rewrite <- (build_media_media _ (Some (full_text cfg message)) 0).
      change (stored (after [EvNow] w)) with (stored w) in X2. now rewrite X2.
    + pose proof (Up req) as U. simpl in U, X1. congruence.
  - exists history', (nows ++ evs ++ [EvNow]). split; [|split].
    + now rewrite <- !app_assoc.
    + exact K.
    + inversion O as [ | |req msg C X1]; subst.
      exists req. unfold events_of. rewrite !List.filter_app.
      change (List.filter is_post nows) with (events_of is_post nows).
      now rewrite (events_of_nows is_post nows eq_refl F).
Qed.

(** X13. A message that a step has just forwarded is skipped when the
    loop meets it again, so a message that comes twice in one response is
    posted once. *)
Theorem process_message_twice chat thread history n message w history' w' :
  process_message cfg env chat thread (history, n) message w
  = (Ok (history', S n), w') ->
  process_message cfg env chat thread (history', S n) message w'
  = (Ok (history', S n), w').
Proof.
  intros E. apply process_message_step in E.
  remember (Ok (history', S n)) as r eqn:Er.
  destruct E as [ | | | | |t window evs nows h' Hin P T R O F K];
    inversion Er; try lia. subst.
  unfold process_message.
  assert (I : in_history (m_id message) history' = true)
    by (apply K; right; now left).
  now rewrite I.
Qed.

(** *** What a run emits *)

Lemma emits_refl P w : emits P w w.
Proof. exists []. split; [reflexivity|constructor]. Qed.

Lemma emits_trans P w1 w2 w3 : emits P w1 w2 -> emits P w2 w3 -> emits P w1 w3.
Proof.
  intros (e1 & T1 & F1) (e2 & T2 & F2). exists (e2 ++ e1). split.
  - now rewrite T2, T1, app_assoc.
  - apply Forall_app. now split.
Qed.

Lemma emits_impl (P Q : Event -> Prop) w w' :
  (forall e, P e -> Q e) -> emits P w w' -> emits Q w w'.
Proof.
  intros PQ (evs & T & F). exists evs. split; [exact T|].
  eapply Forall_impl; [exact F|exact PQ].
Qed.

Lemma only_ret P {A} (a : A) : only P (ret a).
Proof. intros w. apply emits_refl. Qed.

Lemma only_raise P {A} e : only P (@raise A e).
Proof. intros w. apply emits_refl. Qed.

Lemma only_lift P {A} (r : result A) : only P (lift r).
Proof. intros w. apply emits_refl. Qed.

Lemma only_ticks P : only P ticks.
Proof. intros w. apply emits_refl. Qed.

Lemma only_emit (P : Event -> Prop) e : P e -> only P (emit e).
Proof. intros Pe w. exists [e]. split; [reflexivity|now constructor]. Qed.

(** A computation that leaves the events as they are. *)
Lemma only_silent P {A} (c : M A) :
  (forall w, trace (snd (c w)) = trace w) -> only P c.
Proof. intros S w. exists []. split; [apply S|constructor]. Qed.

Lemma only_bind P {A B} (c : M A) (k : A -> M B) :
  only P c -> (forall a, only P (k a)) -> only P (bind c k).
Proof.
  intros Oc Ok' w. unfold bind. specialize (Oc w).
  destruct (c w) as [[a|e] w1]; simpl in Oc; [|exact Oc].
  exact (emits_trans _ _ _ _ Oc (Ok' a w1)).
Qed.

Lemma only_for_each P {A S} (body : S -> A -> M S) l :
  (forall acc x, In x l -> only P (body acc x)) ->
  forall acc, only P (for_each body l acc).
Proof.
  induction l as [|x l IH]; intros Ob acc; simpl; [apply only_ret|].
  apply only_bind; [apply Ob; now left|].
  intros acc'. apply IH. intros a y I. apply Ob. now right.
Qed.

Lemma only_impl (P Q : Event -> Prop) {A} (c : M A) :
  (forall e, P e -> Q e) -> only P c -> only Q c.
Proof. intros PQ Oc w. exact (emits_impl _ _ _ _ PQ (Oc w)). Qed.

Lemma only_load P : P EvLoad -> only P load_upload_history.
Proof.
  intros L. apply only_bind; [now apply only_emit|].
  intros _. now apply only_silent.
Qed.

Lemma only_save P history : P (EvSave history) -> only P (save_upload_history history).
Proof.
  intros L. apply only_bind; [now apply only_emit|].
  intros _. now apply only_silent.
Qed.

Lemma only_utcnow P : P EvNow -> only P (datetime_utcnow env).
Proof.
  intros N. unfold datetime_utcnow.
  apply only_bind; [apply only_ticks|]. intros n.
  apply only_bind; [now apply only_emit|]. intros _. apply only_ret.
Qed.

Lemma only_is_within_window P ts :
  P EvNow -> (forall level msg, P (EvLog level msg)) ->
  only P (is_within_window cfg env ts).
Proof.
  intros N L. unfold is_within_window.
  destruct (fromisoformat _) as [t|].
  - unfold datetime_now.
    repeat first [apply only_bind; [|intros ?] | apply only_ticks | apply only_ret
                 | apply only_lift | now apply only_emit].
  - apply only_bind; [apply only_emit, L|]. intros _. apply only_ret.
Qed.

Lemma only_send_to_telegram chat thread text urls :
  only (step_event chat thread) (send_to_telegram env chat thread text urls).
Proof.
  unfold send_to_telegram.
  apply only_bind; [now apply only_load|]. intros history.
  assert (Sent : only (step_event chat thread) (sent_items urls))
    by (destruct urls; [apply only_ret|apply only_raise]).
  assert (Post : forall req, request_dest req = (chat, thread) ->
            only (step_event chat thread) (post env req)).
  { intros req D. unfold post.
    apply only_bind; [apply only_ticks|]. intros n.
    apply only_bind; [now apply only_emit|]. intros _. apply only_ret. }
  assert (Fin : forall msg (ok : bool),
            only (step_event chat thread)
              (if ok then bind (log msg INFO) (fun _ => sent_items urls)
               else bind (log FailedToSend ERROR) (fun _ => ret (false, [])))).
  { intros msg [|]; (apply only_bind; [now apply only_emit|]); intros _;
      [exact Sent|apply only_ret]. }
  destruct (match urls with Some us => build_media history text 0 us | None => [] end)
    as [|i1 [|i2 l]].
  - destruct text as [[|c text]|]; try apply only_ret.
    apply only_bind; [now apply Post|]. intros ok. apply Fin.
  - apply only_bind; [now apply Post|]. intros ok. apply (Fin SentSinglePhoto).
  - apply only_bind; [now apply Post|]. intros ok. apply Fin.
Qed.

Lemma only_process_message chat thread st message :
  only (step_event chat thread) (process_message cfg env chat thread st message).
Proof.
  destruct st as [history n]. unfold process_message.
  destruct (in_history (m_id message) history); [apply only_ret|].
  apply only_bind; [now apply only_is_within_window|]. intros recent.
  destruct (negb recent); [apply only_ret|].
  apply only_bind; [apply only_send_to_telegram|]. intros [success sent].
  apply only_bind.
  - destruct success; [|apply only_ret].
    apply only_bind; [now apply only_utcnow|]. intros t.
    apply only_bind; [|intros ?; apply only_ret].
    unfold record_items. apply only_for_each. intros acc x _.
    apply only_bind; [now apply only_utcnow|]. intros ?. apply only_ret.
  - intros st'. apply only_bind; [now apply only_save|]. intros _.
    apply only_bind; [now apply only_emit|]. intros _. apply only_ret.
Qed.

Lemma only_process_channel P channel chat thread :
  (forall e, step_event chat thread e -> P e) -> P (EvFetch channel) ->
  only P (process_channel cfg env channel chat thread).
Proof.
  intros Step Fetch.
  assert (Log : forall level msg, P (EvLog level msg))
    by (intros; now apply Step).
  unfold process_channel, log.
  apply only_bind; [apply only_emit, Log|]. intros _.
  apply only_bind.
  - unfold get_discord_messages, log.
    apply only_bind; [apply only_ticks|]. intros n.
    apply only_bind; [now apply only_emit|]. intros _.
    destruct (discord_get env n channel); [apply only_ret|].
    apply only_bind; [apply only_emit, Log|]. intros _. apply only_ret.
  - intros [[|x l]|]; try (apply only_emit, Log).
    apply only_bind; [apply only_load; now apply Step|]. intros history.
    apply only_bind; [|intros st; apply only_emit, Log].
    apply only_for_each. intros acc m _.
    eapply only_impl; [exact Step|apply only_process_message].
Qed.

(** X14. Every post of a run of [main] is addressed to the chat and the
    thread of one of the configured mappings: nothing is ever sent to another
    destination. *)
Theorem main_posts_to_mapped_destinations w :
  exists evs,
    trace (snd (main cfg env w)) = evs ++ trace w
    /\ forall req ok, In (EvPost req ok) evs ->
         exists channel, In (channel, request_dest req) (CHANNEL_MAPPING cfg).
Proof.
  enough (O : only (run_event (CHANNEL_MAPPING cfg)) (main cfg env)).
  { destruct (O w) as (evs & T & F). exists evs. split; [exact T|].
    intros req ok I. rewrite Forall_forall in F.
    apply (F (EvPost req ok)). now apply list_elem_of_In. }
  unfold main, log.
  apply only_bind; [now apply only_emit|]. intros _.
  destruct (_ && _); [|now apply only_emit].
  apply only_bind; [|intros _; now apply only_emit].
  unfold run_mappings. apply only_for_each.
  intros [] [channel [chat thread]] I.
  apply only_process_channel; [|exact Logic.I].
  intros [ | | | |req ok| | ]; simpl; auto.
  intros D. exists channel. now rewrite D.
Qed.

(** *** Runs: the store, exceptions, fetches and the count *)

Lemma step_raise chat thread history n message w e w' :
  process_message cfg env chat thread (history, n) message w = (Raise e, w') ->
  timedelta_hours (MESSAGE_WINDOW_HOURS cfg) = Raise e.
Proof.
  intros E. apply process_message_step in E.
  remember (Raise e) as r eqn:Er. destruct E; inversion Er; subst. assumption.
Qed.

Lemma loop_run chat thread messages :
  forall history n w r w',
    stored w = history ->
    for_each (process_message cfg env chat thread) messages (history, n) w = (r, w') ->
    later w w'
    /\ (forall st, r = Ok st -> stored w' = fst st)
    /\ (forall e, r = Raise e -> timedelta_hours (MESSAGE_WINDOW_HOURS cfg) = Raise e).
Proof.
  induction messages as [|message messages IH]; intros history n w r w' St E.
  - inversion E. subst. split; [apply later_refl|]. split; [now intros st [= <-]|].
    discriminate.
  - rewrite for_each_cons in E.
    destruct (process_message cfg env chat thread (history, n) message w)
      as [r1 w1] eqn:E1.
    destruct (step_later _ _ _ _ _ _ _ _ St E1) as [L1 Sy].
    destruct r1 as [[h1 n1]|e1].
    + destruct (IH h1 n1 w1 r w' (Sy _ eq_refl) E) as (L2 & Sy2 & Ra).
      split; [exact (later_trans _ _ _ L1 L2)|]. split; assumption.
    + inversion E; subst. split; [exact L1|]. split; [discriminate|].
      intros e [= <-]. exact (step_raise _ _ _ _ _ _ _ _ E1).
Qed.

Lemma channel_run channel chat thread w r w' :
  process_channel cfg env channel chat thread w = (r, w') ->
  later w w'
  /\ (r = Ok tt
      \/ exists e, r = Raise e /\ timedelta_hours (MESSAGE_WINDOW_HOURS cfg) = Raise e).
Proof.
  intros E.
  destruct (discord_get env (S (List.length (trace w))) channel) as [response|] eqn:F.
  - destruct (sorted_by_timestamp response) as [|x l] eqn:So.
    + rewrite (process_channel_no_messages _ chat thread _ _ F So) in E.
      inversion E. split; [apply later_after|now left].
    + rewrite (process_channel_fetched _ chat thread _ _ _ _ F So) in E.
      destruct (for_each _ _ _ _) as [r2 w2] eqn:E2.
      destruct (loop_run chat thread (x :: l) (stored w) O
                  (after [EvLoad; EvFetch channel;
                          EvLog INFO (ProcessingChannel channel)] w) r2 w2 eq_refl E2)
        as (L2 & _ & Ra).
      pose proof (later_after [EvLoad; EvFetch channel;
                               EvLog INFO (ProcessingChannel channel)] w) as L1.
      destruct r2 as [st|e]; inversion E; subst.
      * split; [|now left].
        exact (later_trans _ _ _ L1 (later_trans _ _ _ L2 (later_after _ _))).
      * split; [exact (later_trans _ _ _ L1 L2)|]. right. exists e. auto.
  - rewrite (process_channel_fetch_failure _ chat thread _ F) in E.
    inversion E. split; [apply later_after|now left].
Qed.

Lemma mappings_run mappings :
  forall w r w',
    run_mappings cfg env mappings w = (r, w') ->
    later w w'
    /\ (r = Ok tt
        \/ exists e, r = Raise e /\ timedelta_hours (MESSAGE_WINDOW_HOURS cfg) = Raise e).
Proof.
  induction mappings as [|[channel [chat thread]] mappings IH]; intros w r w' E.
  - inversion E. split; [apply later_refl|now left].
  - rewrite run_mappings_cons in E.
    destruct (process_channel cfg env channel chat thread w) as [r1 w1] eqn:E1.
    destruct (channel_run _ _ _ _ _ _ E1) as [L1 [->|(e & -> & T)]].
    + destruct (IH _ _ _ E) as [L2 R]. split; [exact (later_trans _ _ _ L1 L2)|exact R].
    + inversion E; subst. split; [exact L1|]. right. now exists e.
Qed.

Lemma main_run w r w' :
  main cfg env w = (r, w') ->
  later w w'
  /\ (r = Ok tt
      \/ exists e, r = Raise e /\ timedelta_hours (MESSAGE_WINDOW_HOURS cfg) = Raise e).
Proof.
  intros E.
  destruct (truthy (DISCORD_BOT_TOKEN cfg) && truthy (TELEGRAM_BOT_TOKEN cfg)) eqn:Tk.
  - rewrite (main_with_tokens _ Tk) in E.
    destruct (run_mappings _ _ _ _) as [r1 w1] eqn:E1.
    destruct (mappings_run _ _ _ _ E1) as [L1 R].
    pose proof (later_after [EvLog INFO StartingMirror] w) as L0.
    destruct R as [->|(e & -> & T)]; inversion E; subst.
    + split; [|now left].
      exact (later_trans _ _ _ L0 (later_trans _ _ _ L1 (later_after _ _))).
    + split; [exact (later_trans _ _ _ L0 L1)|]. right. now exists e.
  - rewrite (main_without_tokens _ Tk) in E. inversion E.
    split; [apply later_after|now left].
Qed.

(** X15. A run of [main] never removes a key from the history file:
    whatever was recorded as forwarded before the run is recorded after it,
    also when the run ends early. *)
Theorem main_keeps_history w key :
  in_history key (stored w) = true ->
  in_history key (stored (snd (main cfg env w))) = true.
Proof.
  destruct (main cfg env w) as [r w'] eqn:E.
  destruct (main_run _ _ _ E) as [[_ G] _]. apply G.
Qed.

(** X16. A run of [main] ends normally whenever the window is one that
    [timedelta] accepts (at most 999999999 days either way); the one
    exception that can leave [main] is the [OverflowError] of a window that
    is not.  No failed fetch, failed post or bad timestamp ends the run. *)
Theorem main_ends_normally w :
  (fst (main cfg env w) = Ok tt \/ fst (main cfg env w) = Raise OverflowError)
  /\ ((-999999999 <= MESSAGE_WINDOW_HOURS cfg / 24 <= 999999999)%Z ->
      fst (main cfg env w) = Ok tt).
Proof.
  destruct (main cfg env w) as [r w'] eqn:E. simpl.
  destruct (main_run _ _ _ E) as [_ [->|(e & -> & T)]].
  - split; [now left|reflexivity].
  - unfold timedelta_hours in T.
    destruct ((-999999999 <=? MESSAGE_WINDOW_HOURS cfg / 24)
              && (MESSAGE_WINDOW_HOURS cfg / 24 <=? 999999999))%Z eqn:B;
      [discriminate|]. inversion T; subst. split; [now right|].
    intros [B1 B2]. apply Z.leb_le in B1, B2. rewrite B1, B2 in B. discriminate.
Qed.

Lemma step_event_no_fetch chat thread evs :
  Forall (step_event chat thread) evs -> events_of is_fetch evs = [].
Proof.
  induction 1 as [|e evs Pe F IH]; simpl; [reflexivity|].
  destruct e; simpl in *; try exact IH. contradiction.
Qed.

Lemma channel_fetches channel chat thread w :
  exists evs,
    trace (snd (process_channel cfg env channel chat thread w)) = evs ++ trace w
    /\ events_of is_fetch evs = [EvFetch channel].
Proof.
  destruct (discord_get env (S (List.length (trace w))) channel) as [response|] eqn:F.
  - destruct (sorted_by_timestamp response) as [|x l] eqn:So.
    + rewrite (process_channel_no_messages _ chat thread _ _ F So).
      eexists [_; _; _]. split; reflexivity.
    + rewrite (process_channel_fetched _ chat thread _ _ _ _ F So).
      destruct (only_for_each (step_event chat thread)
                  (process_message cfg env chat thread) (x :: l)
                  (fun acc m _ => only_process_message chat thread acc m)
                  (stored w, O)
                  (after [EvLoad; EvFetch channel;
                          EvLog INFO (ProcessingChannel channel)] w))
        as (evs & T & Fe).
      apply step_event_no_fetch in Fe.
      destruct (for_each _ _ _ _) as [[st|e] w2]; simpl in T.
      * exists (EvLog INFO (ProcessedNew (snd st) channel) :: evs
                ++ [EvLoad; EvFetch channel; EvLog INFO (ProcessingChannel channel)]).
        split; [simpl; rewrite T; simpl; now rewrite <- app_assoc|].
        unfold events_of in *. simpl. now rewrite List.filter_app, Fe.
      * exists (evs ++ [EvLoad; EvFetch channel; EvLog INFO (ProcessingChannel channel)]).
        split; [simpl; rewrite T; simpl; now rewrite <- app_assoc|].
        unfold events_of in *. now rewrite List.filter_app, Fe.
  - rewrite (process_channel_fetch_failure _ chat thread _ F).
    eexists [_; _; _; _]. split; reflexivity.
Qed.

Lemma mappings_fetches mappings :
  forall w w',
    run_mappings cfg env mappings w = (Ok tt, w') ->
    exists evs,
      trace w' = evs ++ trace w
      /\ events_of is_fetch evs
         = rev (List.map (fun mapping => EvFetch (fst mapping)) mappings).
Proof.
  induction mappings as [|[channel [chat thread]] mappings IH]; intros w w' E.
  - inversion E. exists []. split; reflexivity.
  - rewrite run_mappings_cons in E.
    destruct (channel_fetches channel chat thread w) as (e1 & T1 & F1).
    destruct (process_channel cfg env channel chat thread w) as [[[]|e] w1];
      [|discriminate].
    simpl in T1. destruct (IH _ _ E) as (e2 & T2 & F2).
    exists (e2 ++ e1). split; [now rewrite T2, T1, app_assoc|].
    unfold events_of in *. rewrite List.filter_app, F1, F2. reflexivity.
Qed.

(** X17. With both tokens set and a window that [timedelta] accepts, a
    run of [main] fetches every configured channel exactly once, in the
    order of the mapping, whatever the fetches and posts answer; without a
    token it fetches nothing. *)
Theorem main_fetches_each_channel w :
  (-999999999 <= MESSAGE_WINDOW_HOURS cfg / 24 <= 999999999)%Z ->
  exists evs,
    trace (snd (main cfg env w)) = evs ++ trace w
    /\ events_of is_fetch evs
       = if truthy (DISCORD_BOT_TOKEN cfg) && truthy (TELEGRAM_BOT_TOKEN cfg)
         then rev (List.map (fun mapping => EvFetch (fst mapping)) (CHANNEL_MAPPING cfg))
         else [].
Proof.
  intros [B1 B2].
  destruct (truthy (DISCORD_BOT_TOKEN cfg) && truthy (TELEGRAM_BOT_TOKEN cfg)) eqn:Tk.
  - rewrite (main_with_tokens _ Tk).
    destruct (run_mappings _ _ _ _) as [r1 w1] eqn:E1.
    destruct (mappings_run _ _ _ _ E1) as [_ [->|(e & -> & T)]].
    + destruct (mappings_fetches _ _ _ E1) as (evs & T1 & F1).
      exists (EvLog INFO MirrorRunFinished :: evs ++ [EvLog INFO StartingMirror]).
      split; [simpl; rewrite T1; simpl; now rewrite <- app_assoc|].
      unfold events_of in *. simpl. rewrite List.filter_app, F1. simpl.
      now rewrite app_nil_r.
    + unfold timedelta_hours in T. apply Z.leb_le in B1, B2.
      rewrite B1, B2 in T. discriminate.
  - rewrite (main_without_tokens _ Tk). eexists [_; _]. split; reflexivity.
Qed.

Lemma step_counts_posts chat thread history n message w history' n' w' :
  process_message cfg env chat thread (history, n) message w = (Ok (history', n'), w') ->
  exists evs,
    trace w' = evs ++ trace w
    /\ n' = (n + List.length (events_of is_ok_post evs))%nat.
Proof.
  intros E. apply process_message_step in E.
  remember (Ok (history', n')) as r eqn:Er.
  destruct E as [ | | | |t window evs Hin P T R O|t window evs nows h' Hin P T R O F K];
    inversion Er; subst.
  - exists []. split; [reflexivity|simpl; lia].
  - eexists [_]. split; [reflexivity|simpl; lia].
  - eexists [_]. split; [reflexivity|simpl; lia].
  - exists (EvSleep REQUEST_DELAY :: EvSave history' :: evs ++ [EvNow]).
    split; [simpl; now rewrite <- app_assoc|].
    inversion O; subst; simpl; lia.
  - exists (EvSleep REQUEST_DELAY :: EvSave history' :: nows ++ evs ++ [EvNow]).
    split; [simpl; now rewrite <- !app_assoc|].
    pose proof (events_of_nows is_ok_post nows eq_refl F) as N.
    unfold events_of in *. simpl. rewrite !List.filter_app, N.
    inversion O; subst; simpl; lia.
Qed.

Lemma loop_counts_posts chat thread messages :
  forall history n w history' n' w',
    for_each (process_message cfg env chat thread) messages (history, n) w
    = (Ok (history', n'), w') ->
    exists evs,
      trace w' = evs ++ trace w
      /\ n' = (n + List.length (events_of is_ok_post evs))%nat.
Proof.
  induction messages as [|message messages IH]; intros history n w history' n' w' E.
  - inversion E. subst. exists []. split; [reflexivity|simpl; lia].
  - rewrite for_each_cons in E.
    destruct (process_message cfg env chat thread (history, n) message w)
      as [[[h1 n1]|e] w1] eqn:E1; [|discriminate].
    destruct (step_counts_posts _ _ _ _ _ _ _ _ _ E1) as (e1 & T1 & C1).
    destruct (IH _ _ _ _ _ _ E) as (e2 & T2 & C2).
    exists (e2 ++ e1). split; [now rewrite T2, T1, app_assoc|].
    unfold events_of in *. rewrite List.filter_app, length_app. lia.
Qed.

(** X18. When a channel with messages has been gone through, the number
    in its closing log line, "Processed n new messages", is the number of
    posts of this channel run that went through. *)
Theorem process_channel_counts_posts channel chat thread w response w' :
  discord_get env (S (List.length (trace w))) channel = Some response ->
  response <> [] ->
  process_channel cfg env channel chat thread w = (Ok tt, w') ->
  exists n evs,
    trace w' = EvLog INFO (ProcessedNew n channel) :: evs ++ trace w
    /\ n = List.length (events_of is_ok_post evs).
Proof.
  intros F NE E.
  destruct (sorted_by_timestamp response) as [|x l] eqn:So.
  { destruct response as [|m response]; [congruence|].
    assert (I : In m (sorted_by_timestamp (m :: response)))
      by (apply In_sorted_by_timestamp; left; reflexivity).
    rewrite So in I. destruct I. }
  rewrite (process_channel_fetched _ chat thread _ _ _ _ F So) in E.
  destruct (for_each _ _ _ _) as [[[h' n']|e] w2] eqn:E2; [|discriminate].
  destruct (loop_counts_posts _ _ _ _ _ _ _ _ _ E2) as (evs & T & C).
  inversion E; subst.
  exists (List.length (events_of is_ok_post evs)),
    (evs ++ [EvLoad; EvFetch channel; EvLog INFO (ProcessingChannel channel)]).
  split.
  - simpl. rewrite T. simpl. now rewrite <- app_assoc.
  - unfold events_of. rewrite List.filter_app. simpl. now rewrite app_nil_r.
Qed.

(** X19. A channel whose fetch fails or gives no message is left after
    the fetch and the log lines alone: the history file is neither read nor
    written, the clock is not read, nothing is posted and the loop does not
    wait. *)
Theorem process_channel_without_messages channel chat thread w :
  discord_get env (S (List.length (trace w))) channel = None
  \/ discord_get env (S (List.length (trace w))) channel = Some [] ->
  exists evs,
    process_channel cfg env channel chat thread w = (Ok tt, after evs w)
    /\ Forall (fun e => e = EvFetch channel \/ exists level msg, e = EvLog level msg) evs.
Proof.
  intros [F|F].
  - rewrite (process_channel_fetch_failure _ chat thread _ F).
    eexists. split; [reflexivity|].
    repeat match goal with
           | |- Forall _ (_ :: _) => constructor; [first [now left|right; eauto]|]
           | |- Forall _ [] => constructor
           end.
  - rewrite (process_channel_no_messages _ chat thread _ _ F eq_refl).
    eexists. split; [reflexivity|].
    repeat match goal with
           | |- Forall _ (_ :: _) => constructor; [first [now left|right; eauto]|]
           | |- Forall _ [] => constructor
           end.
Qed.

(** *** The window, again *)

(** X20. With a clock that does not go back, a timestamp found outside
    the window stays outside: at every later moment the answer is again
    [False]. *)
Theorem is_within_window_stays_out ts w w' :
  (forall i j, (i <= j)%nat -> (utc_clock env i <= utc_clock env j)%Z) ->
  (List.length (trace w) <= List.length (trace w'))%nat ->
  fst (is_within_window cfg env ts w) = Ok false ->
  fst (is_within_window cfg env ts w') = Ok false.
Proof.
  intros Mono L.
  destruct (fromisoformat (replace_char (chr "Z") (u "+00:00") ts)) as [t|] eqn:P.
  - rewrite !(is_within_window_parsed _ _ _ P).
    destruct (timedelta_hours (MESSAGE_WINDOW_HOURS cfg)) as [window|e]; simpl;
      [|discriminate].
    intros [= E]. f_equal. apply Z.ltb_ge in E. apply Z.ltb_ge.
    unfold now_wall in *. specialize (Mono _ _ L). lia.
  - now rewrite !(is_within_window_unparsed _ _ P).
Qed.

Lemma replace_char_app old new s1 s2 :
  replace_char old new (s1 ++ s2) = replace_char old new s1 ++ replace_char old new s2.
Proof. unfold replace_char. apply flat_map_app. Qed.

(** X21. A timestamp that ends in [Z] gets the answer of the same
    timestamp ending in [+00:00]: the designator is rewritten before the
    string is parsed. *)
Theorem is_within_window_utc_designator ts w :
  fst (is_within_window cfg env (ts ++ u "Z") w)
  = fst (is_within_window cfg env (ts ++ u "+00:00") w).
Proof.
  unfold is_within_window. rewrite !replace_char_app.
  change (replace_char (chr "Z") (u "+00:00") (u "Z")) with (u "+00:00").
  change (replace_char (chr "Z") (u "+00:00") (u "+00:00")) with (u "+00:00").
  destruct (fromisoformat _); reflexivity.
Qed.

(** *** Tokens *)

Lemma match_plus_run cls k run rest m :
  run <> [] ->
  Forall (fun c => cls c = true) run ->
  match rest with c :: _ => cls c = false | [] => True end ->
  k rest = Some m ->
  match_plus cls k (run ++ rest) = Some (List.length run + m)%nat.
Proof.
  intros NE F Hr Hk. induction F as [|c run Hc F IH]; [congruence|].
  simpl. rewrite Hc. destruct run as [|c' run].
  - simpl. assert (N : match_plus cls k rest = None).
    { destruct rest as [|x rest]; simpl; [reflexivity|]. now rewrite Hr. }
    now rewrite N, Hk.
  - rewrite IH by discriminate. reflexivity.
Qed.

Lemma sub_from_skip_app r token post :
  sub_from r (List.length token) (token ++ post) = sub_from r O post.
Proof. induction token as [|c token IH]; simpl; [reflexivity|exact IH]. Qed.

(** A match at the front is dropped whole. *)
Lemma re_sub_token r token post :
  token <> [] ->
  match_regex r (token ++ post) = Some (List.length token) ->
  re_sub r (token ++ post) = re_sub r post.
Proof.
  intros NE E. destruct token as [|c token]; [congruence|].
  unfold re_sub. simpl app in *. rewrite sub_from_cons, E. simpl.
  apply sub_from_skip_app.
Qed.

Lemma emoji_needs_bracket :
  Forall (fun b => match b with
                   | (cls, One) :: _ => forall c, cls c = true -> c = chr "<"
                   | _ => False
                   end) custom_emoji.
Proof. repeat constructor; intros x; apply is_chr_eq. Qed.

Lemma mention_needs_bracket :
  Forall (fun b => match b with
                   | (cls, One) :: _ => forall c, cls c = true -> c = chr "<"
                   | _ => False
                   end) mention.
Proof. repeat constructor; intros x; apply is_chr_eq. Qed.

(** Text without [<] in front of a text is kept, and the substitution
    goes on behind it. *)
Lemma re_sub_prefix r pre s :
  Forall (fun b => match b with
                   | (cls, One) :: _ => forall c, cls c = true -> c = chr "<"
                   | _ => False
                   end) r ->
  Forall (fun c => c <> chr "<") pre ->
  re_sub r (pre ++ s) = pre ++ re_sub r s.
Proof.
  intros Fr Fp. unfold re_sub. induction Fp as [|c pre Hc Fp IH]; [reflexivity|].
  simpl app. rewrite sub_from_cons.
  rewrite (match_needs_bracket r (c :: pre ++ s) Fr Hc). now rewrite IH.
Qed.

Lemma clean_content_unfold s :
  clean_content_for_telegram cfg (Some s)
  = filter_content cfg
      (Some (re_sub formatting (re_sub mention (re_sub custom_emoji s)))).
Proof. now destruct s. Qed.

Lemma match_emoji_token animated name id post :
  classes_exclude_punctuation ->
  name <> [] -> Forall (fun c => sre_word c = true) name ->
  id <> [] -> Forall (fun c => sre_digit c = true) id ->
  match_regex custom_emoji (emoji_token animated name id ++ post)
  = Some (List.length (emoji_token animated name id)).
Proof.
  intros (Wc & _ & Dg & _ & _) Nn Fn Ni Fi.
  assert (Id : match_plus sre_digit (match_one (is_chr ">") (fun _ => Some O))
                 (id ++ chr ">" :: post) = Some (List.length id + 1)%nat)
    by (apply match_plus_run; [exact Ni|exact Fi|exact Dg|reflexivity]).
  assert (Name : match_plus sre_word
                   (match_one (is_chr ":")
                      (match_plus sre_digit (match_one (is_chr ">") (fun _ => Some O))))
                   (name ++ chr ":" :: id ++ chr ">" :: post)
                 = Some (List.length name + S (List.length id + 1))%nat).
  { apply match_plus_run; [exact Nn|exact Fn|exact Wc|]. simpl. now rewrite Id. }
  unfold emoji_token, custom_emoji, match_regex. rewrite <- !app_assoc.
  destruct animated; simpl; rewrite Name; simpl; rewrite !length_app; simpl;
    rewrite ?length_app; simpl; f_equal; lia.
Qed.

(** X22. A custom emoji, plain or animated, leaves no trace: a text in
    which it stands behind text without [<] is cleaned as if the emoji were
    not there. *)
Theorem clean_content_drops_emoji front animated name id behind :
  classes_exclude_punctuation ->
  Forall (fun c => c <> chr "<") front ->
  name <> [] -> Forall (fun c => sre_word c = true) name ->
  id <> [] -> Forall (fun c => sre_digit c = true) id ->
  clean_content_for_telegram cfg (Some (front ++ emoji_token animated name id ++ behind))
  = clean_content_for_telegram cfg (Some (front ++ behind)).
Proof.
  intros Cl Ff Nn Fn Ni Fi. rewrite !clean_content_unfold.
  rewrite !(re_sub_prefix custom_emoji front _ emoji_needs_bracket Ff).
  rewrite (re_sub_token custom_emoji (emoji_token animated name id) behind);
    [reflexivity|now destruct animated|now apply match_emoji_token].
Qed.

Lemma digit_is_not cls (a : ascii) id rest (K : pystr -> option nat) :
  id <> [] -> Forall (fun c => cls c = true) id -> cls (chr a) = false ->
  match_one (is_chr a) K (id ++ rest) = None.
Proof.
  intros NE F Na. destruct F as [|d id Hd F]; [congruence|]. simpl.
  unfold is_chr. destruct (N.eqb_spec d (chr a)) as [->|_]; [congruence|reflexivity].
Qed.

Lemma match_mention_token kind id post :
  classes_exclude_punctuation ->
  id <> [] -> Forall (fun c => sre_digit c = true) id ->
  match_regex mention (mention_token kind id ++ post)
  = Some (List.length (mention_token kind id)).
Proof.
  intros (_ & _ & Dg & Da & Db) Ni Fi.
  assert (Id : match_plus sre_digit (match_one (is_chr ">") (fun _ => Some O))
                 (id ++ chr ">" :: post) = Some (List.length id + 1)%nat)
    by (apply match_plus_run; [exact Ni|exact Fi|exact Dg|reflexivity]).
  pose proof (digit_is_not sre_digit "!" id (chr ">" :: post)
                (match_plus sre_digit (match_one (is_chr ">") (fun _ => Some O)))
                Ni Fi Db) as Bang.
  unfold mention_token, mention, match_regex. rewrite <- !app_assoc.
  destruct kind; simpl in *.
  - rewrite Bang, Id. simpl. rewrite !length_app. simpl; rewrite ?length_app; simpl; f_equal; lia.
  - rewrite Id. simpl. rewrite !length_app. simpl; rewrite ?length_app; simpl; f_equal; lia.
  - rewrite Da, Id. simpl. rewrite !length_app. simpl; rewrite ?length_app; simpl; f_equal; lia.
  - rewrite Id. simpl. rewrite !length_app. simpl; rewrite ?length_app; simpl; f_equal; lia.
Qed.

(** The pattern of the emojis passes over a mention. *)
Lemma emoji_skips_mention kind id behind :
  classes_exclude_punctuation ->
  Forall (fun c => sre_digit c = true) id ->
  re_sub custom_emoji (mention_token kind id ++ behind)
  = mention_token kind id ++ re_sub custom_emoji behind.
Proof.
  intros (_ & Dl & _ & _ & _) Fi.
  assert (Tail : Forall (fun c => c <> chr "<") (mention_sigil kind ++ id ++ [chr ">"])).
  { apply Forall_app. split; [destruct kind; repeat constructor; discriminate|].
    apply Forall_app. split; [|repeat constructor; discriminate].
    eapply Forall_impl; [exact Fi|]. intros c Hc ->. congruence. }
  set (tail := mention_sigil kind ++ id ++ [chr ">"]) in *.
  change (mention_token kind id) with (chr "<" :: tail).
  assert (No : match_regex custom_emoji (chr "<" :: tail ++ behind) = None)
    by (unfold tail; destruct kind; reflexivity).
  unfold re_sub at 1. simpl app. rewrite sub_from_cons, No. f_equal.
  exact (re_sub_prefix custom_emoji tail behind emoji_needs_bracket Tail).
Qed.

(** X23. A mention of a user, a role or a channel leaves no trace: a
    text in which it stands behind text without [<] is cleaned as if the
    mention were not there. *)
Theorem clean_content_drops_mention front kind id behind :
  classes_exclude_punctuation ->
  Forall (fun c => c <> chr "<") front ->
  id <> [] -> Forall (fun c => sre_digit c = true) id ->
  clean_content_for_telegram cfg (Some (front ++ mention_token kind id ++ behind))
  = clean_content_for_telegram cfg (Some (front ++ behind)).
Proof.
  intros Cl Ff Ni Fi. rewrite !clean_content_unfold.
  rewrite !(re_sub_prefix custom_emoji front _ emoji_needs_bracket Ff).
  rewrite (emoji_skips_mention kind id behind Cl Fi).
  rewrite !(re_sub_prefix mention front _ mention_needs_bracket Ff).
  rewrite (re_sub_token mention (mention_token kind id));
    [reflexivity|now destruct kind|now apply match_mention_token].
Qed.

End Properties.

(** ** The program on examples *)

Section Examples.

Import Sample.

#[local] Existing Instance ascii_range.
#[local] Existing Instance iso8601.

(** C1. The history holds the first of two urls and the text is empty:
    the photo branch is taken with the second url alone, the send succeeds,
    and both urls are reported, the skipped one as well. *)
Theorem send_to_telegram_reports_skipped_url :
  send_to_telegram (env_of no_items true (fun _ => t0)) chat thread (Some [])
    (Some [u "https://cdn/0.png"; u "https://cdn/1.png"]) (world_of (Some history_u0))
  = (Ok (true, [u "https://cdn/0.png"; u "https://cdn/1.png"]),
     {| file := Some history_u0;
        trace := [EvLog INFO SentSinglePhoto;
                  EvPost (SendPhoto chat thread (u "https://cdn/1.png") None) true;
                  EvLoad] |}).
Proof. vm_compute. reflexivity. Qed.

(** The same from the loop: a message of two images, the first already in
    the history.  One photo is posted, and the record of the image that was
    not sent is written again, with the time of this run. *)
Example skipped_url_is_recorded_again :
  events_of is_post
    (trace (snd (process_message config (env_of no_items true (fun _ => t0 + minutes 5)%Z)
                   chat thread (history_u0, O) message_pair
                   (world_of (Some history_u0)))))
  = [EvPost (SendPhoto chat thread (u "https://cdn/1.png") None) true]
  /\ history_u0 !! u "https://cdn/0.png" = Some (u "2023-12-31T23:00:00")
  /\ stored (snd (process_message config
                    (env_of no_items true (fun _ => t0 + minutes 5)%Z)
                    chat thread (history_u0, O) message_pair
                    (world_of (Some history_u0))))
     !! u "https://cdn/0.png" = Some (u "2024-01-01T00:05:00").
Proof. vm_compute. repeat split; reflexivity. Qed.

(** C3. The history holds the first of three urls and the text is
    ["caption"]: the album of the two other urls is sent, and no image of it
    carries the caption. *)
Theorem send_to_telegram_album_loses_caption :
  send_to_telegram (env_of no_items true (fun _ => t0)) chat thread (Some (u "caption"))
    (Some three_urls) (world_of (Some history_u0))
  = (Ok (true, three_urls),
     {| file := Some history_u0;
        trace := [EvLog INFO (SentMediaGroupWith 2);
                  EvPost (SendMediaGroup chat thread
                            [{| media := u "https://cdn/1.png"; caption := None |};
                             {| media := u "https://cdn/2.png"; caption := None |}])
                    true;
                  EvLoad] |}).
Proof. vm_compute. reflexivity. Qed.

(** The same from the loop: a message with the text ["caption"] and three
    images, the first already in the history.  The album goes out without
    the text, and the message is recorded as forwarded. *)
Example album_without_caption_from_loop :
  events_of is_post
    (trace (snd (process_message config (env_of no_items true (fun _ => t0 + minutes 5)%Z)
                   chat thread (history_u0, O) message_album
                   (world_of (Some history_u0)))))
  = [EvPost (SendMediaGroup chat thread
               [{| media := u "https://cdn/1.png"; caption := None |};
                {| media := u "https://cdn/2.png"; caption := None |}]) true]
  /\ in_history (u "45")
       (stored (snd (process_message config
                       (env_of no_items true (fun _ => t0 + minutes 5)%Z)
                       chat thread (history_u0, O) message_album
                       (world_of (Some history_u0))))) = true.
Proof. vm_compute. split; reflexivity. Qed.

(** Three urls, none in the history, and the text ["caption"]: one album,
    the caption on its first image only. *)
Example album_of_three_gets_caption :
  send_to_telegram (env_of no_items true (fun _ => t0)) chat thread (Some (u "caption"))
    (Some three_urls) (world_of None)
  = (Ok (true, three_urls),
     {| file := None;
        trace := [EvLog INFO (SentMediaGroupWith 3);
                  EvPost (SendMediaGroup chat thread
                            [{| media := u "https://cdn/0.png";
                                caption := Some (u "caption") |};
                             {| media := u "https://cdn/1.png"; caption := None |};
                             {| media := u "https://cdn/2.png"; caption := None |}])
                    true;
                  EvLoad] |}).
Proof. vm_compute. reflexivity. Qed.

(** C4. With the banned phrase ["ab"], the text ["aabb"] contains the
    phrase and so does the output, ["ab"]. *)
Lemma filter_content_leaves_phrase :
  ~ (forall P T,
       In P (FILTER_WORDS config) ->
       occurs_ic P T = true ->
       occurs_ic P (filter_content config (Some T)) = false).
Proof.
  intros C. specialize (C (u "ab") (u "aabb")).
  assert (E : occurs_ic (u "ab") (filter_content config (Some (u "aabb"))) = true)
    by (vm_compute; reflexivity).
  rewrite C in E; [discriminate|left; reflexivity|vm_compute; reflexivity].
Qed.

(** The content filter with the phrases ["ab"] and ["!"]. *)
Lemma filter_content_single_pass_witness :
  occurs_ic (u "!") (filter_content config (Some (u "Hi!! a!b"))) = false
  /\ exists j, (1 <= j < 1 + 2)%nat
               /\ kept_from (escape_ignorecase (u "ab")) O (u "aabb") !! j = Some false.
Proof.
  destruct (filter_content_single_pass config) as (_ & _ & _ & Hit & Single).
  split.
  - apply (Single (chr "!")). right. left. reflexivity.
  - apply (Hit (u "ab") (u "aabb") 1%nat); [discriminate|reflexivity].
Defined.

(** The window filter at 61 and 59 minutes after midnight, and on a string
    that is no timestamp. *)
Lemma is_within_window_one_hour_witness :
  fst (is_within_window config (env_of no_items true (fun _ => t0 + minutes 61)%Z)
         (u "2024-01-01T00:00:00Z") (world_of None)) = Ok false
  /\ fst (is_within_window config (env_of no_items true (fun _ => t0 + minutes 59)%Z)
            (u "2024-01-01T00:00:00Z") (world_of None)) = Ok true
  /\ fst (is_within_window config (env_of no_items true (fun _ => t0))
            (u "yesterday") (world_of None)) = Ok false.
Proof.
  split; [|split].
  - destruct (is_within_window_one_hour config
                (env_of no_items true (fun _ => t0 + minutes 61)%Z)
                (u "2024-01-01T00:00:00Z") (world_of None) eq_refl) as [P _].
    destruct (P {| wall := t0; tzinfo := Some 0%Z |} eq_refl) as (_ & Late & _).
    apply Late. reflexivity.
  - destruct (is_within_window_one_hour config
                (env_of no_items true (fun _ => t0 + minutes 59)%Z)
                (u "2024-01-01T00:00:00Z") (world_of None) eq_refl) as [P _].
    destruct (P {| wall := t0; tzinfo := Some 0%Z |} eq_refl) as (_ & _ & Early & _).
    apply Early. reflexivity.
  - destruct (is_within_window_one_hour config (env_of no_items true (fun _ => t0))
                (u "yesterday") (world_of None) eq_refl) as [_ Bad].
    rewrite (Bad eq_refl). reflexivity.
Defined.

(** The message ["42"] with ["42"] in the history. *)
Lemma message_42_is_skipped :
  in_history (u "42") history_42 = true
  /\ process_message config (env_of no_items true (fun _ => t0)) chat thread
       (history_42, O) message_42 (world_of (Some history_42))
     = (Ok (history_42, O), world_of (Some history_42)).
Proof.
  split; [vm_compute; reflexivity|].
  apply (message_in_history_is_skipped config (env_of no_items true (fun _ => t0))).
  vm_compute; reflexivity.
Defined.

(** A message of markup and a video. *)
Lemma empty_message_never_recorded_witness :
  process_message config (env_of no_items true (fun _ => t0 + minutes 5)%Z) chat thread
    (history_42, O) message_empty (world_of (Some history_42))
  = (Ok (history_42, O),
     {| file := Some history_42;
        trace := [EvSleep 3; EvSave history_42; EvLoad; EvNow] |}).
Proof.
  apply (empty_message_never_recorded config
           (env_of no_items true (fun _ => t0 + minutes 5)%Z) chat thread
           history_42 O message_empty (world_of (Some history_42)));
    vm_compute; reflexivity.
Defined.

(** A transport that is down. *)
Lemma failed_send_records_nothing_witness :
  fst (send_to_telegram (env_of no_items false (fun _ => t0)) chat thread
         (Some (u "caption")) (Some three_urls) (world_of None)) = Ok (false, [])
  /\ exists evs,
       process_message config (env_of no_items false (fun _ => t0)) chat thread
         (∅, O) message_42 (world_of None)
       = (Ok (∅, O),
          {| file := Some ∅; trace := EvSleep 3 :: EvSave ∅ :: evs ++ [] |})
       /\ events_of is_save evs = [].
Proof.
  destruct (failed_send_records_nothing config (env_of no_items false (fun _ => t0))
              chat thread) as [Forwarder Caller].
  split.
  - apply Forwarder. reflexivity.
  - apply (Caller ∅ O message_42 (world_of None)); vm_compute; reflexivity.
Defined.

(** The fetch of channel 100 fails and channel 200 is processed. *)
Lemma fetch_failure_skips_one_channel_witness :
  run_mappings config (env_of items_200 true (fun _ => t0)) (CHANNEL_MAPPING config)
    (world_of None)
  = run_mappings config (env_of items_200 true (fun _ => t0))
      [(u "200", (IdInt (-1002), IdInt 8))]
      (after [EvLog WARNING (NoMessagesFound (u "100"));
              EvLog ERROR ErrorFetchingFromDiscord;
              EvFetch (u "100");
              EvLog INFO (ProcessingChannel (u "100"))] (world_of None)).
Proof.
  apply (fetch_failure_skips_one_channel config (env_of items_200 true (fun _ => t0))
           [] (u "100") (IdInt (-1001)) (IdInt 7) [(u "200", (IdInt (-1002), IdInt 8))]
           (world_of None) (world_of None)); reflexivity.
Defined.

(** C2. Two messages are fetched, both already in the history: the
    whole channel run reads the store once, before the loop. *)
Lemma process_channel_loads_once :
  ~ (forall (w : World) (response : list Message),
       discord_get (env_of items_two true (fun _ => t0)) (S (List.length (trace w)))
         (u "100") = Some response ->
       (List.length response
        <= List.length
             (events_of is_load
                (trace (snd (process_channel config (env_of items_two true (fun _ => t0))
                               (u "100") chat thread w)))))%nat).
Proof.
  intros C.
  specialize (C (world_of (Some history_two)) [message_44; message_42] eq_refl).
  vm_compute in C. lia.
Qed.

(** A channel of two messages. *)
Lemma history_loaded_per_channel_witness :
  (exists evs,
     trace (snd (process_channel config (env_of items_two true (fun _ => t0)) (u "100")
                   chat thread (world_of None))) = evs ++ []
     /\ List.length (events_of is_load evs) = S (List.length (events_of is_save evs)))
  /\ exists history n w',
       for_each (process_message config (env_of items_two true (fun _ => t0)) chat thread)
         [message_42; message_44] (∅, O) (world_of None)
       = (Ok (history, n), w')
       /\ stored w' = history.
Proof.
  destruct (history_loaded_per_channel config (env_of items_two true (fun _ => t0))
              chat thread) as [Once Sync].
  split.
  - apply (Once (u "100") (world_of None) [message_44; message_42]);
      [reflexivity|discriminate].
  - destruct (for_each
                (process_message config (env_of items_two true (fun _ => t0)) chat thread)
                [message_42; message_44] (∅, O) (world_of None))
      as [[[history n]|e] w'] eqn:E.
    + exists history, n, w'. split; [reflexivity|].
      exact (Sync [message_42; message_44] (world_of None) history n w' E).
    + exfalso. vm_compute in E. discriminate.
Defined.

(** The first run posts two messages, the second none. *)
Lemma second_run_sends_nothing_witness :
  List.length (events_of is_post (trace (snd (main config env_ticking (world_of None)))))
  = 2%nat
  /\ events_of is_post
       (trace (snd (main config env_ticking
                      (snd (main config env_ticking (world_of None))))))
     = events_of is_post (trace (snd (main config env_ticking (world_of None)))).
Proof.
  split; [vm_compute; reflexivity|].
  apply (second_run_sends_nothing config env_ticking (world_of None)
           (fst (main config env_ticking (world_of None)))
           (snd (main config env_ticking (world_of None)))
           (fst (main config env_ticking (snd (main config env_ticking (world_of None)))))
           (snd (main config env_ticking (snd (main config env_ticking (world_of None)))))).
  - intros i j channel. reflexivity.
  - intros i j L. simpl. lia.
  - apply surjective_pairing.
  - vm_compute. reflexivity.
  - apply surjective_pairing.
Defined.

(** The fetch of channel 100 gives two messages, the later one first. *)
Lemma get_discord_messages_sorted_witness :
  exists messages,
    get_discord_messages env_ticking (u "100") (world_of None)
    = (Ok (Some messages), after [EvFetch (u "100")] (world_of None))
    /\ Permutation messages [message_44; message_42]
    /\ StronglySorted timestamp_le messages
    /\ forall ts, List.filter (has_timestamp ts) messages
                  = List.filter (has_timestamp ts) [message_44; message_42].
Proof.
  exact (get_discord_messages_sorted env_ticking (u "100") (world_of None)
           [message_44; message_42] eq_refl).
Defined.

(** A text without the phrases ["ab"] and ["!"]. *)
Lemma filter_content_without_phrases_witness :
  filter_content config (Some (u "  hello world ")) = strip (u "  hello world ").
Proof.
  apply (filter_content_without_phrases config (u "  hello world ")).
  intros word [<-|[<-|[]]] _; vm_compute; reflexivity.
Defined.

Lemma clean_content_plain_text_witness :
  clean_content_for_telegram config (Some (u "hello"))
  = filter_content config (Some (u "hello")).
Proof.
  apply (clean_content_plain_text config (u "hello")).
  repeat (constructor; [split; [discriminate|reflexivity]|]). constructor.
Defined.

(** The field ["Notes"] has a value of markup only. *)
Lemma process_embed_drops_incomplete_field_witness :
  process_embed config {| e_title := Some (u "Build"); e_description := None;
                          e_fields := Some (fields_before ++ field_without_value
                                            :: fields_behind) |}
  = process_embed config {| e_title := Some (u "Build"); e_description := None;
                            e_fields := Some (fields_before ++ fields_behind) |}.
Proof.
  apply (process_embed_drops_incomplete_field config (Some (u "Build")) None
           fields_before field_without_value fields_behind).
  right. vm_compute. reflexivity.
Defined.

Lemma send_to_telegram_default_urls_witness :
  send_to_telegram (env_of no_items true (fun _ => t0)) chat thread (Some (u "hi")) None
    (world_of None)
  = (Raise TypeError,
     after [EvLog INFO SentTextOnly; EvPost (SendMessage chat thread (u "hi")) true;
            EvLoad] (world_of None)).
Proof.
  apply (send_to_telegram_default_urls (env_of no_items true (fun _ => t0)) chat thread
           (chr "h") (u "i") (world_of None)).
  reflexivity.
Defined.

(** The message ["42"], five minutes old, with a transport that is up. *)
Lemma process_message_records_witness :
  exists history' evs,
    process_message config (env_of no_items true (fun _ => t0 + minutes 5)%Z) chat thread
      (∅, O) message_42 (world_of None)
    = (Ok (history', 1%nat),
       {| file := Some history';
          trace := EvSleep REQUEST_DELAY :: EvSave history' :: evs ++ [] |})
    /\ (forall key, in_history key history' = true
                    <-> in_history key ∅ = true \/ key = u "42"
                        \/ In key (image_urls_of message_42))
    /\ exists req, events_of is_post evs = [EvPost req true].
Proof.
  apply (process_message_records config (env_of no_items true (fun _ => t0 + minutes 5)%Z)
           chat thread ∅ O message_42 (world_of None)).
  - vm_compute. reflexivity.
  - vm_compute. reflexivity.
  - left. vm_compute. discriminate.
  - intros req. reflexivity.
Defined.

(** The message ["42"] comes a second time. *)
Lemma process_message_twice_witness :
  process_message config (env_of no_items true (fun _ => t0 + minutes 5)%Z) chat thread
    (stored (snd (process_message config
                    (env_of no_items true (fun _ => t0 + minutes 5)%Z) chat thread
                    (∅, O) message_42 (world_of None))), 1%nat)
    message_42
    (snd (process_message config (env_of no_items true (fun _ => t0 + minutes 5)%Z)
            chat thread (∅, O) message_42 (world_of None)))
  = (Ok (stored (snd (process_message config
                        (env_of no_items true (fun _ => t0 + minutes 5)%Z) chat thread
                        (∅, O) message_42 (world_of None))), 1%nat),
     snd (process_message config (env_of no_items true (fun _ => t0 + minutes 5)%Z)
            chat thread (∅, O) message_42 (world_of None))).
Proof.
  apply (process_message_twice config (env_of no_items true (fun _ => t0 + minutes 5)%Z)
           chat thread ∅ O message_42 (world_of None)).
  vm_compute. reflexivity.
Defined.

Lemma main_keeps_history_witness :
  in_history (u "42")
    (stored (snd (main config env_ticking (world_of (Some history_42))))) = true.
Proof.
  apply (main_keeps_history config env_ticking (world_of (Some history_42)) (u "42")).
  vm_compute. reflexivity.
Defined.

(** Channel 100, then channel 200. *)
Lemma main_fetches_each_channel_witness :
  exists evs,
    trace (snd (main config env_ticking (world_of None))) = evs ++ []
    /\ events_of is_fetch evs = [EvFetch (u "200"); EvFetch (u "100")].
Proof.
  apply (main_fetches_each_channel config env_ticking (world_of None)).
  vm_compute. split; discriminate.
Defined.

Lemma process_channel_counts_posts_witness :
  exists n evs,
    trace (snd (process_channel config env_ticking (u "100") chat thread (world_of None)))
    = EvLog INFO (ProcessedNew n (u "100")) :: evs ++ []
    /\ n = List.length (events_of is_ok_post evs).
Proof.
  apply (process_channel_counts_posts config env_ticking (u "100") chat thread
           (world_of None) [message_44; message_42]).
  - reflexivity.
  - discriminate.
  - vm_compute. reflexivity.
Defined.

Lemma process_channel_without_messages_witness :
  exists evs,
    process_channel config (env_of no_items true (fun _ => t0)) (u "100") chat thread
      (world_of None)
    = (Ok tt, after evs (world_of None))
    /\ Forall (fun e => e = EvFetch (u "100") \/ exists level msg, e = EvLog level msg)
         evs.
Proof.
  apply (process_channel_without_messages config (env_of no_items true (fun _ => t0))
           (u "100") chat thread (world_of None)).
  left. reflexivity.
Defined.

(** A timestamp of the day before, now and three events later. *)
Lemma is_within_window_stays_out_witness :
  fst (is_within_window config env_ticking timestamp_old
         (after [EvNow; EvNow; EvNow] (world_of None))) = Ok false.
Proof.
  apply (is_within_window_stays_out config env_ticking timestamp_old (world_of None)
           (after [EvNow; EvNow; EvNow] (world_of None))).
  - intros i j L. simpl. lia.
  - simpl. lia.
  - vm_compute. reflexivity.
Defined.

Lemma ascii_classes_exclude_punctuation : classes_exclude_punctuation.
Proof. vm_compute. repeat split. Qed.

(** ["hi <a:wave:45>!"] and ["hi !"] *)
Lemma clean_content_drops_emoji_witness :
  clean_content_for_telegram config
    (Some (u "hi " ++ emoji_token true (u "wave") (u "45") ++ u " there"))
  = clean_content_for_telegram config (Some (u "hi " ++ u " there")).
Proof.
  apply (clean_content_drops_emoji config (u "hi ") true (u "wave") (u "45") (u " there")).
  - exact ascii_classes_exclude_punctuation.
  - repeat (constructor; [discriminate|]). constructor.
  - discriminate.
  - repeat (constructor; [reflexivity|]). constructor.
  - discriminate.
  - repeat (constructor; [reflexivity|]). constructor.
Defined.

(** ["ask <@&77> now"] and ["ask  now"] *)
Lemma clean_content_drops_mention_witness :
  clean_content_for_telegram config
    (Some (u "ask " ++ mention_token RoleMention (u "77") ++ u " now"))
  = clean_content_for_telegram config (Some (u "ask " ++ u " now")).
Proof.
  apply (clean_content_drops_mention config (u "ask ") RoleMention (u "77") (u " now")).
  - exact ascii_classes_exclude_punctuation.
  - repeat (constructor; [discriminate|]). constructor.
  - discriminate.
  - repeat (constructor; [reflexivity|]). constructor.
Defined.

End Examples.
